(** * Osiris callback manager (bg3se, Lua/Server/LuaOsirisBinding.cpp)

    A shallow embedding of [PendingCallbackManager] and
    [OsirisCallbackManager]: the subscriber registry, the node-reference
    encoding, the depth-indexed snapshot pool used for reentrant dispatch,
    the per-handler invocation guard around the Lua call, and the hook
    latch.

    Conventions.
    - [uint32_t]/[uint64_t] identifiers are [Z]; the only arithmetic on them
      is a bitwise or of a 32-bit id with a 64-bit constant, which cannot
      wrap.
    - [std::unordered_multimap] is an association list in insertion order.
      Equivalent keys are kept adjacent by the container, the STL this
      Windows project is built with links a new element behind the last
      equivalent one, and rehashing keeps the relative order of equivalent
      elements, so [equal_range] enumerates the values of one key in
      insertion order.  The iteration order across different keys depends on
      the hash; wherever the code iterates the whole container the order is
      an explicit argument constrained by [valid_traversal].
    - Pointers to pooled [Array<std::size_t>] objects are addresses into an
      explicit heap [arrays], so that a slot read during iteration is the
      live object and not a private copy.
    - A Lua handler is known to the manager by its registry reference only.
      What it does when called is a [Script]: the subscriptions it makes and
      the engine activity it causes, which re-enters the manager through the
      hooks, and the way it ends (return, script error, native exception).
      Re-entrance has no bound in the code; the model runs with a [fuel] that
      bounds the nesting depth of handler calls and reports [OutOfFuel]
      beyond it.
    - A firing returns, next to the new state, the handlers it invoked, in
      order, each with the firings it caused ([Invocation]). *)

From Stdlib Require Import ZArith Lia.
From stdpp Require Import base option list strings relations.

Set Warnings "-register-all".

(** ** Data model *)

Inductive HookType :=
| BeforeTrigger
| AfterTrigger
| BeforeDeleteTrigger
| AfterDeleteTrigger.

Record OsirisHookSignature := mkSig {
  name : string;
  arity : Z;
  type : HookType }.

#[global] Instance HookType_eq_dec : EqDecision HookType.
Proof. solve_decision. Defined.

#[global] Instance OsirisHookSignature_eq_dec : EqDecision OsirisHookSignature.
Proof. solve_decision. Defined.

(** The members of [FunctionType] the source names; the enumeration's other
    members are declared in a header and are folded into [OtherFunction]. *)
Inductive FunctionType :=
| Event
| Query
| Call
| Database
| Proc
| UserQuery
| OtherFunction.

#[global] Instance FunctionType_eq_dec : EqDecision FunctionType.
Proof. solve_decision. Defined.

(** [Function::Node] is a node reference: [Id] is the number stored in it,
    [Get] tells whether [Node.Get()] resolves to a node ([false] stands for
    [nullptr]). *)
Record NodeRef := mkNodeRef {
  Id : Z;
  Get : bool }.

Record Function := mkFunction {
  Type_ : FunctionType;
  OsiFunctionId : Z;
  Node : NodeRef }.

(** The symbol table consulted by [LookupOsiFunction(name, arity)]. *)
Definition Story := string -> Z -> option Function.

(** A [RegistryEntry] is a reference to a Lua function held in the Lua
    registry; the manager never looks inside. *)
Definition RegistryEntry := nat.

Definition OsiValue := Z.

Inductive LuaValue :=
| LFunction (f : RegistryEntry)
| LArg (v : OsiValue)
| LError (msg : string)
| LOther.

(** Messages written by [OsiWarn] and [LuaError]. *)
Inductive Diagnostic :=
| WarnSymbolNotFound (n : string) (a : Z)
| WarnSymbolKind (n : string) (a : Z)
| WarnDeleteTriggers (n : string) (a : Z)
| ErrHandlerFailed
| ErrCallbackFailed
| ErrInternal.

(** Calls received by [gExtender->GetServer().Osiris()]. *)
Inductive ExtenderCall :=
| HookNodeVMTs
| BindCallbackManager (bound : bool).

#[global] Instance ExtenderCall_eq_dec : EqDecision ExtenderCall.
Proof. solve_decision. Defined.

Record PendingCallbackManager := mkPending {
  cache_ : list nat;
  depth_ : nat }.

Record OsirisCallbackManager := mkManager {
  subscribers_ : list RegistryEntry;
  nameSubscriberRefs_ : list (OsirisHookSignature * nat);
  nodeSubscriberRefs_ : list (Z * nat);
  pendingCallbacks_ : PendingCallbackManager;
  storyLoaded_ : bool;
  osirisHooked_ : bool;
  merging_ : bool }.

(** The manager together with the collaborators it talks to. *)
Record World := mkWorld {
  callbacks : OsirisCallbackManager;
  arrays : list (list nat);
  story : Story;
  osiris : list ExtenderCall;
  luaAvailable : bool;
  L : list LuaValue;
  console : list Diagnostic }.

(** What one run of a Lua handler does to the bridge. *)
Inductive Hook :=
| OnInsertPre (node : Z) (tuple : option (list OsiValue)) (deleted : bool)
| OnInsertPost (node : Z) (tuple : option (list OsiValue)) (deleted : bool)
| OnCallQueryPre (node : Z) (args : list OsiValue)
| OnCallQueryPost (node : Z) (args : list OsiValue) (succeeded : bool)
| OnCallPre (functionId : Z) (args : list OsiValue)
| OnCallPost (functionId : Z) (args : list OsiValue) (succeeded : bool)
| OnEventPre (functionId : Z) (args : list OsiValue)
| OnEventPost (functionId : Z) (args : list OsiValue).

Inductive Action :=
| DoSubscribe (n : string) (a : Z) (t : HookType) (handler : RegistryEntry)
| DoEngine (h : Hook).

Inductive CallResult :=
| Returns
| ScriptError (msg : string)
| NativeFault (residue : list LuaValue).

Record Script := mkScript {
  body : list Action;
  result : CallResult }.

(** The handlers run by one firing, each with the firings it caused. *)
Inductive Invocation :=
| Invoked (h : RegistryEntry) (args : list OsiValue) (nested : list Invocation).

Definition root (i : Invocation) : RegistryEntry :=
  match i with Invoked h _ _ => h end.

Inductive Fault :=
| AssertionFailed
| OutOfBounds.

Inductive Outcome (A : Type) :=
| Done (a : A)
| OutOfFuel
| Crash (f : Fault).

Arguments Done {A} a.
Arguments OutOfFuel {A}.
Arguments Crash {A} f.

Definition bind {A B} (m : Outcome A) (k : A -> Outcome B) : Outcome B :=
  match m with
  | Done a => k a
  | OutOfFuel => OutOfFuel
  | Crash f => Crash f
  end.

Notation "'let*' x := m 'in' k" := (bind m (fun x => k))
  (at level 10, x pattern, m at level 100, k at level 200).

Inductive CallStatus :=
| Status (code : Z)
| Exception.

(** ** Record updates *)

Definition set_subscribers v (m : OsirisCallbackManager) :=
  mkManager v (nameSubscriberRefs_ m) (nodeSubscriberRefs_ m)
    (pendingCallbacks_ m) (storyLoaded_ m) (osirisHooked_ m) (merging_ m).
Definition set_nameSubscriberRefs v (m : OsirisCallbackManager) :=
  mkManager (subscribers_ m) v (nodeSubscriberRefs_ m)
    (pendingCallbacks_ m) (storyLoaded_ m) (osirisHooked_ m) (merging_ m).
Definition set_nodeSubscriberRefs v (m : OsirisCallbackManager) :=
  mkManager (subscribers_ m) (nameSubscriberRefs_ m) v
    (pendingCallbacks_ m) (storyLoaded_ m) (osirisHooked_ m) (merging_ m).
Definition set_pendingCallbacks v (m : OsirisCallbackManager) :=
  mkManager (subscribers_ m) (nameSubscriberRefs_ m) (nodeSubscriberRefs_ m)
    v (storyLoaded_ m) (osirisHooked_ m) (merging_ m).
Definition set_storyLoaded v (m : OsirisCallbackManager) :=
  mkManager (subscribers_ m) (nameSubscriberRefs_ m) (nodeSubscriberRefs_ m)
    (pendingCallbacks_ m) v (osirisHooked_ m) (merging_ m).
Definition set_osirisHooked v (m : OsirisCallbackManager) :=
  mkManager (subscribers_ m) (nameSubscriberRefs_ m) (nodeSubscriberRefs_ m)
    (pendingCallbacks_ m) (storyLoaded_ m) v (merging_ m).
Definition set_merging v (m : OsirisCallbackManager) :=
  mkManager (subscribers_ m) (nameSubscriberRefs_ m) (nodeSubscriberRefs_ m)
    (pendingCallbacks_ m) (storyLoaded_ m) (osirisHooked_ m) v.

Definition with_callbacks (f : OsirisCallbackManager -> OsirisCallbackManager) (w : World) :=
  mkWorld (f (callbacks w)) (arrays w) (story w) (osiris w) (luaAvailable w) (L w) (console w).
Definition set_arrays v (w : World) :=
  mkWorld (callbacks w) v (story w) (osiris w) (luaAvailable w) (L w) (console w).
Definition set_story v (w : World) :=
  mkWorld (callbacks w) (arrays w) v (osiris w) (luaAvailable w) (L w) (console w).
Definition set_osiris v (w : World) :=
  mkWorld (callbacks w) (arrays w) (story w) v (luaAvailable w) (L w) (console w).
Definition set_luaAvailable v (w : World) :=
  mkWorld (callbacks w) (arrays w) (story w) (osiris w) v (L w) (console w).
Definition set_L v (w : World) :=
  mkWorld (callbacks w) (arrays w) (story w) (osiris w) (luaAvailable w) v (console w).
Definition report (d : Diagnostic) (w : World) :=
  mkWorld (callbacks w) (arrays w) (story w) (osiris w) (luaAvailable w) (L w) (console w ++ [d]).

(** ** [std::unordered_multimap] *)

Module Multimap.
Section Multimap.
Context {K : Type} `{EqDecision K}.

(** [insert]: the new element goes behind the elements already there, in
    particular behind those with an equivalent key. *)
Definition insert (k : K) (v : nat) (m : list (K * nat)) : list (K * nat) :=
  m ++ [(k, v)].

(** [equal_range(k)], as the sequence of [it->second] from [first] to
    [second]; it is empty exactly when [first == end()]. *)
Definition equal_range (k : K) (m : list (K * nat)) : list nat :=
  (filter (fun p => p.1 = k) m).*2.

Definition clear (m : list (K * nat)) : list (K * nat) := [].

(** An order in which a range-for over the whole container may visit the
    elements: all of them, equivalent keys in their insertion order. *)
Definition valid_traversal (m order : list (K * nat)) : Prop :=
  order ≡ₚ m /\ forall k, equal_range k order = equal_range k m.

End Multimap.
End Multimap.

(** ** The manager *)

(** The phase bits.  They are declared next to the class in a header that
    is not part of the source (reserved high bits of the 64-bit node
    reference), so the development is parametric in them. *)
Class PhaseBits := {
  BeforeFunctionRef : Z;
  AfterFunctionRef : Z;
  AfterTriggerNodeRef : Z;
  DeleteTriggerNodeRef : Z }.

(** The Lua code behind each handler reference: what the function does when
    it is called with the given arguments. *)
Class LuaCode := program : RegistryEntry -> list OsiValue -> Script.

Section Manager.

Context `{PhaseBits} `{LuaCode}.

Definition OsiWarn (d : Diagnostic) (w : World) : World := report d w.
Definition LuaError (d : Diagnostic) (w : World) : World := report d w.

(** *** Hook latch *)

Definition HookOsiris (w : World) : World :=
  if osirisHooked_ (callbacks w) then w
  else
    let w := set_osiris (osiris w ++ [HookNodeVMTs]) w in
    let w := set_osiris (osiris w ++ [BindCallbackManager true]) w in
    with_callbacks (set_osirisHooked true) w.

(** *** Resolution of a signature to a node reference *)

(** The first lines of [RegisterNodeHandler]: look the symbol up, and for a
    user query look up its backing definition instead. *)
Definition LookupBacking (st : Story) (sig : OsirisHookSignature) : option Function :=
  match st (name sig) (arity sig) with
  | Some func =>
      if decide (Type_ func = UserQuery)
      then st (name sig +:+ "__DEF__") (arity sig)
      else Some func
  | None => None
  end.

(** The condition under which [RegisterNodeHandler] refuses a symbol. *)
Definition not_hookable (func : Function) : bool :=
  (bool_decide (Type_ func <> Event)
   && bool_decide (Type_ func <> Call)
   && negb (Get (Node func)))
  || (bool_decide (Type_ func <> Event)
      && bool_decide (Type_ func <> Query)
      && bool_decide (Type_ func <> Call)
      && bool_decide (Type_ func <> UserQuery)
      && bool_decide (Type_ func <> Database)
      && bool_decide (Type_ func <> Proc)).

Definition RegisterNodeHandler (sig : OsirisHookSignature) (handlerId : nat)
    (w : World) : World :=
  match LookupBacking (story w) sig with
  | None => OsiWarn (WarnSymbolNotFound (name sig) (arity sig)) w
  | Some func =>
      if not_hookable func
      then OsiWarn (WarnSymbolKind (name sig) (arity sig)) w
      else
        let insert nodeRef :=
          with_callbacks (fun m =>
            set_nodeSubscriberRefs
              (Multimap.insert nodeRef handlerId (nodeSubscriberRefs_ m)) m) w in
        if bool_decide (Type_ func = Event) || bool_decide (Type_ func = Call)
        then
          let nodeRef := OsiFunctionId func in
          if decide (type sig = BeforeTrigger)
          then insert (Z.lor nodeRef BeforeFunctionRef)
          else if decide (type sig = AfterTrigger)
          then insert (Z.lor nodeRef AfterFunctionRef)
          else OsiWarn (WarnDeleteTriggers (name sig) (arity sig)) w
        else
          let nodeRef := Id (Node func) in
          let nodeRef :=
            if bool_decide (type sig = AfterTrigger)
               || bool_decide (type sig = AfterDeleteTrigger)
            then Z.lor nodeRef AfterTriggerNodeRef else nodeRef in
          let nodeRef :=
            if bool_decide (type sig = BeforeDeleteTrigger)
               || bool_decide (type sig = AfterDeleteTrigger)
            then Z.lor nodeRef DeleteTriggerNodeRef else nodeRef in
          insert nodeRef
  end.

(** *** Subscription *)

Definition Subscribe (n : string) (a : Z) (t : HookType) (handler : RegistryEntry)
    (w : World) : World :=
  let sig := mkSig n a t in
  let it := (sig, length (subscribers_ (callbacks w))) in
  let w := with_callbacks (fun m =>
    set_nameSubscriberRefs
      (Multimap.insert it.1 it.2 (nameSubscriberRefs_ m)) m) w in
  let w := with_callbacks (fun m =>
    set_subscribers (subscribers_ m ++ [handler]) m) w in
  if storyLoaded_ (callbacks w)
  then RegisterNodeHandler it.1 it.2 (HookOsiris w)
  else w.

(** [StoryLoaded] walks the whole name map; [order] is the order in which
    the range-for visits it. *)
Definition StoryLoaded (order : list (OsirisHookSignature * nat)) (w : World) : World :=
  let w := HookOsiris w in
  let w := with_callbacks (set_storyLoaded true) w in
  let w := with_callbacks (fun m =>
    set_nodeSubscriberRefs (Multimap.clear (nodeSubscriberRefs_ m)) m) w in
  foldl (fun w it => RegisterNodeHandler it.1 it.2 w) w order.

Definition StorySetMerging (isMerging : bool) (w : World) : World :=
  with_callbacks (set_merging isMerging) w.

(** The manager as its constructor leaves it. *)
Definition OsirisCallbackManager_new : OsirisCallbackManager :=
  mkManager [] [] [] (mkPending [] 0) false false false.

(** The destructor unbinds the manager if it was ever bound. *)
Definition OsirisCallbackManager_delete (w : World) : World :=
  if osirisHooked_ (callbacks w)
  then set_osiris (osiris w ++ [BindCallbackManager false]) w
  else w.

(** *** The snapshot pool *)

(** Modelled from the spec: [GameAlloc<Array<std::size_t>>()], the game
    allocator, which is not part of the source; a fresh, empty array at an
    address no live object has. *)
Definition GameAlloc (heap : list (list nat)) : nat * list (list nat) :=
  (length heap, heap ++ [[]]).

(** Modelled from the spec: [Array::Add], declared outside the source;
    appends one element to the array at address [entry]. *)
Definition Array_Add (entry v : nat) (heap : list (list nat)) : list (list nat) :=
  alter (fun a => a ++ [v]) entry heap.

(** [range] is the sequence of [it->second] for [it] in [[begin, end)]. *)
Definition Enter (range : list nat) (p : PendingCallbackManager)
    (heap : list (list nat)) : Outcome (nat * PendingCallbackManager * list (list nat)) :=
  let '(cache, heap) :=
    if bool_decide (length (cache_ p) <= depth_ p)
    then let '(a, heap) := GameAlloc heap in (cache_ p ++ [a], heap)
    else (cache_ p, heap) in
  match cache !! depth_ p with
  | None => Crash OutOfBounds
  | Some entry =>
      match heap !! entry with
      | None => Crash OutOfBounds
      | Some _ =>
          let heap := <[entry := []]> heap in
          let p := mkPending cache (S (depth_ p)) in
          let heap := foldl (fun h v => Array_Add entry v h) heap range in
          Done (entry, p, heap)
      end
  end.

Definition Exit (v : nat) (p : PendingCallbackManager) : Outcome PendingCallbackManager :=
  if bool_decide (0 < depth_ p) && bool_decide (cache_ p !! (depth_ p - 1) = Some v)
  then Done (mkPending (cache_ p) (depth_ p - 1))
  else Crash AssertionFailed.

Definition pendingCallbacks_Enter (range : list nat) (w : World) : Outcome (nat * World) :=
  let* (entry, p, heap) := Enter range (pendingCallbacks_ (callbacks w)) (arrays w) in
  Done (entry, set_arrays heap (with_callbacks (set_pendingCallbacks p) w)).

Definition pendingCallbacks_Exit (v : nat) (w : World) : Outcome World :=
  let* p := Exit v (pendingCallbacks_ (callbacks w)) in
  Done (with_callbacks (set_pendingCallbacks p) w).

(** *** The scripting runtime's stack *)

(** Modelled from the spec: [lua_gettop] of the embedded runtime, which is
    not part of the source; the number of values on the stack. *)
Definition lua_gettop (w : World) : Z := Z.of_nat (length (L w)).

(** Modelled from the spec: [lua_pop] of the embedded runtime; removes the
    topmost [n] values. *)
Definition lua_pop (n : Z) (w : World) : World :=
  set_L (drop (Z.to_nat n) (L w)) w.

(** Modelled from the spec: [lua_checkstack] of the embedded runtime; it
    grows the capacity and leaves the contents alone. *)
Definition lua_checkstack (n : Z) (w : World) : World := w.

(** Modelled from the spec: [RegistryEntry::Push], declared outside the
    source; pushes the referenced Lua function, one stack slot. *)
Definition Push (func : RegistryEntry) (w : World) : World :=
  set_L (LFunction func :: L w) w.

(** Modelled from the spec: [OsiToLua], declared outside the source; one
    stack slot per argument, in list order. *)
Definition OsiToLua (v : OsiValue) (w : World) : World :=
  set_L (LArg v :: L w) w.

(** *** Dispatch, over an arbitrary protected call *)

Section Dispatch.

Variable call : nat -> World -> Outcome (CallStatus * World * list Invocation).

(** [RunHandler], the overload for an [OsiArgumentDesc] chain.
    [args] is the chain reached through [NextParam].  The [catch] branch is
    the [Exception] status of the call.  The two scope guards at the top of
    the function ([StackCheck], [LifetimeStackPin]) belong to other classes
    and take no part in what is computed here. *)
Definition RunHandler_args (func : RegistryEntry) (args : list OsiValue)
    (w : World) : Outcome (World * list Invocation) :=
  let stackArgs := foldl (fun n _ => n + 1)%Z 1%Z args in
  let w := lua_checkstack stackArgs w in
  let stackSize := lua_gettop w in
  let w := Push func w in
  let '(w, numArgs) :=
    foldl (fun '(w, n) v => (OsiToLua v w, S n)) (w, 0) args in
  let* (st, w, t) := call numArgs w in
  match st with
  | Status code =>
      if decide (code <> 0)%Z
      then Done (lua_pop 1 (LuaError ErrHandlerFailed w), t)
      else Done (w, t)
  | Exception =>
      let stackRemaining := (lua_gettop w - stackSize)%Z in
      if decide (stackRemaining > 0)%Z
      then Done (lua_pop stackRemaining (LuaError ErrCallbackFailed w), t)
      else Done (LuaError ErrInternal w, t)
  end.

(** [RunHandler], the overload for a [TuplePtrLL].  [tuple]
    is [None] for a null pointer, otherwise the items between [Head->Next]
    and [Head]. *)
Definition RunHandler_tuple (func : RegistryEntry) (tuple : option (list OsiValue))
    (w : World) : Outcome (World * list Invocation) :=
  let stackArgs :=
    match tuple with
    | Some items => foldl (fun n _ => n + 1)%Z 1%Z items
    | None => 1%Z
    end in
  let w := lua_checkstack stackArgs w in
  let stackSize := lua_gettop w in
  let w := Push func w in
  let '(w, numArgs) :=
    match tuple with
    | Some items => foldl (fun '(w, n) v => (OsiToLua v w, S n)) (w, 0) items
    | None => (w, 0)
    end in
  let* (st, w, t) := call numArgs w in
  match st with
  | Status code =>
      if decide (code <> 0)%Z
      then Done (lua_pop 1 (LuaError ErrHandlerFailed w), t)
      else Done (w, t)
  | Exception =>
      let stackRemaining := (lua_gettop w - stackSize)%Z in
      if decide (stackRemaining > 0)%Z
      then Done (lua_pop stackRemaining (LuaError ErrCallbackFailed w), t)
      else Done (LuaError ErrInternal w, t)
  end.

(** [for (auto index : *indices)]: the bounds are taken when the loop
    starts ([n] elements), each element is read from the pooled array
    when its turn comes. *)
Fixpoint for_each_index (run : RegistryEntry -> World -> Outcome (World * list Invocation))
    (indices : nat) (n i : nat) (w : World) : Outcome (World * list Invocation) :=
  match n with
  | O => Done (w, [])
  | S n' =>
      match arrays w !! indices ≫= (fun a => a !! i) with
      | None => Crash OutOfBounds
      | Some index =>
          match subscribers_ (callbacks w) !! index with
          | None => Crash OutOfBounds
          | Some func =>
              let* (w, t1) := run func w in
              let* (w, t2) := for_each_index run indices n' (S i) w in
              Done (w, t1 ++ t2)
          end
      end
  end.

Definition Array_size (indices : nat) (w : World) : nat :=
  from_option length 0 (arrays w !! indices).

(** [RunHandlers], the overload for a [TuplePtrLL].  [luaAvailable] is the
    test of the [LuaServerPin]. *)
Definition RunHandlers_tuple (nodeRef : Z) (tuple : option (list OsiValue))
    (w : World) : Outcome (World * list Invocation) :=
  if merging_ (callbacks w) then Done (w, [])
  else
    let it := Multimap.equal_range nodeRef (nodeSubscriberRefs_ (callbacks w)) in
    if decide (it = []) then Done (w, [])
    else if luaAvailable w then
      let* (indices, w) := pendingCallbacks_Enter it w in
      let* (w, t) :=
        for_each_index (fun func => RunHandler_tuple func tuple)
          indices (Array_size indices w) 0 w in
      let* w := pendingCallbacks_Exit indices w in
      Done (w, t)
    else Done (w, []).

(** [RunHandlers], the overload for an [OsiArgumentDesc] chain. *)
Definition RunHandlers_args (nodeRef : Z) (args : list OsiValue)
    (w : World) : Outcome (World * list Invocation) :=
  let it := Multimap.equal_range nodeRef (nodeSubscriberRefs_ (callbacks w)) in
  if decide (it = []) then Done (w, [])
  else if luaAvailable w then
    let* (indices, w) := pendingCallbacks_Enter it w in
    let* (w, t) :=
      for_each_index (fun func => RunHandler_args func args)
        indices (Array_size indices w) 0 w in
    let* w := pendingCallbacks_Exit indices w in
    Done (w, t)
  else Done (w, []).

(** *** Entry points called by the patched engine *)

Definition InsertPreHook (node : Z) (tuple : option (list OsiValue)) (deleted : bool) :=
  let nodeRef := node in
  let nodeRef := if deleted then Z.lor nodeRef DeleteTriggerNodeRef else nodeRef in
  RunHandlers_tuple nodeRef tuple.

Definition InsertPostHook (node : Z) (tuple : option (list OsiValue)) (deleted : bool) :=
  let nodeRef := Z.lor node AfterTriggerNodeRef in
  let nodeRef := if deleted then Z.lor nodeRef DeleteTriggerNodeRef else nodeRef in
  RunHandlers_tuple nodeRef tuple.

Definition CallQueryPreHook (node : Z) (args : list OsiValue) :=
  RunHandlers_args node args.

Definition CallQueryPostHook (node : Z) (args : list OsiValue) (succeeded : bool) :=
  let nodeRef := Z.lor node AfterTriggerNodeRef in
  RunHandlers_args nodeRef args.

Definition CallPreHook (functionId : Z) (args : list OsiValue) :=
  let nodeRef := Z.lor functionId BeforeFunctionRef in
  RunHandlers_args nodeRef args.

Definition CallPostHook (functionId : Z) (args : list OsiValue) (succeeded : bool) :=
  let nodeRef := Z.lor functionId AfterFunctionRef in
  RunHandlers_args nodeRef args.

Definition EventPreHook (functionId : Z) (args : list OsiValue) :=
  let nodeRef := Z.lor functionId BeforeFunctionRef in
  RunHandlers_args nodeRef args.

Definition EventPostHook (functionId : Z) (args : list OsiValue) :=
  let nodeRef := Z.lor functionId AfterFunctionRef in
  RunHandlers_args nodeRef args.

Definition dispatch (h : Hook) : World -> Outcome (World * list Invocation) :=
  match h with
  | OnInsertPre node tuple deleted => InsertPreHook node tuple deleted
  | OnInsertPost node tuple deleted => InsertPostHook node tuple deleted
  | OnCallQueryPre node args => CallQueryPreHook node args
  | OnCallQueryPost node args succeeded => CallQueryPostHook node args succeeded
  | OnCallPre functionId args => CallPreHook functionId args
  | OnCallPost functionId args succeeded => CallPostHook functionId args succeeded
  | OnEventPre functionId args => EventPreHook functionId args
  | OnEventPost functionId args => EventPostHook functionId args
  end.

(** What a running handler does: it subscribes, or it makes the engine
    evaluate something that comes back through one of the hooks. *)
Definition perform (a : Action) (w : World) : Outcome (World * list Invocation) :=
  match a with
  | DoSubscribe n ar t handler => Done (Subscribe n ar t handler w, [])
  | DoEngine h => dispatch h w
  end.

Fixpoint run_script (acts : list Action) (w : World) : Outcome (World * list Invocation) :=
  match acts with
  | [] => Done (w, [])
  | a :: acts =>
      let* (w, t1) := perform a w in
      let* (w, t2) := run_script acts w in
      Done (w, t1 ++ t2)
  end.

End Dispatch.

(** Modelled from the spec: [CallWithTraceback(L, numArgs, 0)], the
    runtime's protected call, which is not part of the source.  It takes
    the function and its [numArgs] arguments off the stack and runs the
    function.  A normal return leaves nothing (no results are requested)
    and gives status 0; a script error leaves the one error value and gives
    a non-zero status; a native exception escapes with whatever the callee
    left above the caller's values.  While the handler runs it may
    re-enter the manager; [fuel] bounds the depth of such nesting. *)
Fixpoint CallWithTraceback (fuel : nat) (numArgs : nat) (w : World)
    : Outcome (CallStatus * World * list Invocation) :=
  match fuel with
  | O => OutOfFuel
  | S fuel' =>
      match L w !! numArgs with
      | Some (LFunction h) =>
          let args :=
            omap (fun v => match v with LArg a => Some a | _ => None end)
              (reverse (take numArgs (L w))) in
          let script := program h args in
          let* (w, nested) := run_script (CallWithTraceback fuel') (body script) w in
          let base := drop (S numArgs) (L w) in
          let t := [Invoked h args nested] in
          match result script with
          | Returns => Done (Status 0, set_L base w, t)
          | ScriptError msg => Done (Status 2, set_L (LError msg :: base) w, t)
          | NativeFault residue => Done (Exception, set_L (residue ++ base) w, t)
          end
      | _ =>
          Done (Status 2,
                set_L (LError "attempt to call a non-function" :: drop (S numArgs) (L w)) w,
                [])
      end
  end.

(** The two overloads of [RunHandlers] and [RunHandler] as the engine's
    thread runs them, handlers nesting at most [fuel] deep. *)
Definition fire (fuel : nat) (h : Hook) (w : World) : Outcome (World * list Invocation) :=
  dispatch (CallWithTraceback fuel) h w.

End Manager.

(** ** Specification vocabulary *)

Section Specification.

Context `{PhaseBits} `{LuaCode}.

Definition is_event_or_call (func : Function) : bool :=
  bool_decide (Type_ func = Event) || bool_decide (Type_ func = Call).

Definition phase_is_after (phase : HookType) : bool :=
  bool_decide (phase = AfterTrigger) || bool_decide (phase = AfterDeleteTrigger).

Definition phase_is_delete (phase : HookType) : bool :=
  bool_decide (phase = BeforeDeleteTrigger) || bool_decide (phase = AfterDeleteTrigger).

(** The node reference as the specification words it: event and call
    symbols take the function id with the before-function or the
    after-function bit, node-backed symbols take the node id with the after
    bit and the delete bit according to the phase. *)
Definition spec_node_reference (func : Function) (phase : HookType) : Z :=
  if is_event_or_call func
  then Z.lor (OsiFunctionId func)
         (match phase with
          | BeforeTrigger => BeforeFunctionRef
          | _ => AfterFunctionRef
          end)
  else Z.lor
         (Z.lor (Id (Node func))
            (if phase_is_after phase then AfterTriggerNodeRef else 0))
         (if phase_is_delete phase then DeleteTriggerNodeRef else 0).

(** A resolved symbol is accepted for a phase when its kind can be hooked
    and, for events and calls, the phase is not a delete phase. *)
Definition accepted (func : Function) (phase : HookType) : bool :=
  negb (not_hookable func)
  && negb (is_event_or_call func && phase_is_delete phase).

Definition resolve (st : Story) (sig : OsirisHookSignature) : option Z :=
  match LookupBacking st sig with
  | Some func =>
      if accepted func (type sig)
      then Some (spec_node_reference func (type sig))
      else None
  | None => None
  end.

(** The handlers a firing of [nodeRef] finds, in the order of the node
    map's equal range. *)
Definition handlers_for (nodeRef : Z) (m : OsirisCallbackManager) : list RegistryEntry :=
  omap (fun index => subscribers_ m !! index)
    (Multimap.equal_range nodeRef (nodeSubscriberRefs_ m)).

Definition roots (t : list Invocation) : list RegistryEntry := root <$> t.

(** Every index stored in either map points into the handler list. *)
Definition indices_valid (m : OsirisCallbackManager) : Prop :=
  Forall (fun p => p.2 < length (subscribers_ m)) (nameSubscriberRefs_ m)
  /\ Forall (fun p => p.2 < length (subscribers_ m)) (nodeSubscriberRefs_ m).

(** The pool holds one live array per slot, and the depth is within it. *)
Definition pool_ok (w : World) : Prop :=
  let p := pendingCallbacks_ (callbacks w) in
  depth_ p <= length (cache_ p)
  /\ NoDup (cache_ p)
  /\ Forall (fun a => a < length (arrays w)) (cache_ p).

Definition wf (w : World) : Prop :=
  indices_valid (callbacks w) /\ pool_ok w.

(** What a completed dispatch, or a completed handler, may have changed. *)
Record extends (w w' : World) : Prop := mkExtends {
  ext_subscribers :
    subscribers_ (callbacks w) `prefix_of` subscribers_ (callbacks w');
  ext_names :
    nameSubscriberRefs_ (callbacks w) `prefix_of` nameSubscriberRefs_ (callbacks w');
  ext_nodes :
    nodeSubscriberRefs_ (callbacks w) `prefix_of` nodeSubscriberRefs_ (callbacks w');
  ext_depth :
    depth_ (pendingCallbacks_ (callbacks w')) = depth_ (pendingCallbacks_ (callbacks w));
  ext_cache :
    cache_ (pendingCallbacks_ (callbacks w))
      `prefix_of` cache_ (pendingCallbacks_ (callbacks w'));
  ext_live : forall i a,
    i < depth_ (pendingCallbacks_ (callbacks w)) ->
    cache_ (pendingCallbacks_ (callbacks w)) !! i = Some a ->
    arrays w' !! a = arrays w !! a;
  ext_heap : length (arrays w) <= length (arrays w');
  ext_merging : merging_ (callbacks w') = merging_ (callbacks w);
  ext_storyLoaded : storyLoaded_ (callbacks w') = storyLoaded_ (callbacks w);
  ext_story : story w' = story w;
  ext_lua : luaAvailable w' = luaAvailable w }.

(** How the protected call leaves the stack, by exit path. *)
Definition stack_law (numArgs : nat) (st : CallStatus) (before after : list LuaValue) : Prop :=
  match st with
  | Status code =>
      if decide (code <> 0)%Z
      then exists e, after = e :: drop (S numArgs) before
      else after = drop (S numArgs) before
  | Exception => exists residue, after = residue ++ drop (S numArgs) before
  end.

(** Partial and crash-free readings of an outcome. *)
Definition partial {A} (P : A -> Prop) (o : Outcome A) : Prop :=
  match o with
  | Done a => P a
  | _ => True
  end.

Definition safe {A} (P : A -> Prop) (o : Outcome A) : Prop :=
  match o with
  | Done a => P a
  | OutOfFuel => True
  | Crash _ => False
  end.

(** A handler that only subscribes: running it re-enters no hook. *)
Definition is_subscribe (a : Action) : bool :=
  match a with
  | DoSubscribe _ _ _ _ => true
  | DoEngine _ => false
  end.

Definition quiet (h : RegistryEntry) : Prop :=
  forall args, forallb is_subscribe (body (program h args)) = true.

(** The operations the engine's thread and the scripts perform on the
    manager, one step each. *)
Inductive step : World -> World -> Prop :=
| step_Subscribe n a t handler w :
    step w (Subscribe n a t handler w)
| step_StoryLoaded order st w :
    Multimap.valid_traversal (nameSubscriberRefs_ (callbacks w)) order ->
    step w (StoryLoaded order (set_story st w))
| step_StorySetMerging b w :
    step w (StorySetMerging b w)
| step_HookOsiris w :
    step w (HookOsiris w)
| step_runtime available stack w :
    step w (set_luaAvailable available (set_L stack w))
| step_fire fuel h w w' t :
    fire fuel h w = Done (w', t) ->
    step w w'.

Definition initial (w : World) : Prop :=
  callbacks w = OsirisCallbackManager_new.

Inductive reachable : World -> Prop :=
| reachable_initial w : initial w -> reachable w
| reachable_step w w' : reachable w -> step w w' -> reachable w'.

(** Two worlds that differ in the Lua stack and the console only. *)
Definition same_core (w w' : World) : Prop :=
  callbacks w' = callbacks w /\ arrays w' = arrays w
  /\ story w' = story w /\ luaAvailable w' = luaAvailable w.

(** The subscriptions a handler made while it ran are in the maps
    afterwards, behind everything that was there when it started. *)
Definition registered (subs : list RegistryEntry) (loaded : bool) (st : Story)
    (nodes' : list (Z * nat)) (subs' : list RegistryEntry) (inv : Invocation) : Prop :=
  match inv with
  | Invoked h a _ =>
      forall n ar ty hnew nodeRef,
        DoSubscribe n ar ty hnew ∈ body (program h a) ->
        loaded = true ->
        resolve st (mkSig n ar ty) = Some nodeRef ->
        exists idx,
          length subs <= idx
          /\ (nodeRef, idx) ∈ nodes'
          /\ subs' !! idx = Some hnew
  end.

Definition registers (w w' : World) (inv : Invocation) : Prop :=
  registered (subscribers_ (callbacks w)) (storyLoaded_ (callbacks w)) (story w)
    (nodeSubscriberRefs_ (callbacks w')) (subscribers_ (callbacks w')) inv.

(** What the handlers of a firing are expected to be, by overload. *)
Definition expected_args (nodeRef : Z) (w : World) : list RegistryEntry :=
  if luaAvailable w then handlers_for nodeRef (callbacks w) else [].

Definition expected_tuple (nodeRef : Z) (w : World) : list RegistryEntry :=
  if merging_ (callbacks w) then [] else expected_args nodeRef w.

(** Postconditions of the protected call, of one guarded handler run, of
    one firing, and of anything a handler may do. *)
Definition call_post (n : nat) (w : World)
    : CallStatus * World * list Invocation -> Prop :=
  fun '(st, w', t) =>
    wf w' /\ extends w w' /\ stack_law n st (L w) (L w')
    /\ forall h, L w !! n = Some (LFunction h) ->
         exists a nested,
           t = [Invoked h a nested] /\ registers w w' (Invoked h a nested).

Definition handler_post (func : RegistryEntry) (w : World)
    : World * list Invocation -> Prop :=
  fun '(w', t) =>
    wf w' /\ extends w w' /\ L w' = L w
    /\ exists a nested,
         t = [Invoked func a nested] /\ registers w w' (Invoked func a nested).

Definition firing_post (expected : list RegistryEntry) (w : World)
    : World * list Invocation -> Prop :=
  fun '(w', t) =>
    wf w' /\ extends w w' /\ L w' = L w /\ roots t = expected
    /\ Forall (registers w w') t.

Definition dispatch_post (w : World) : World * list Invocation -> Prop :=
  fun '(w', t) => wf w' /\ extends w w' /\ L w' = L w.

Definition stack_kept (w : World) : World * list Invocation -> Prop :=
  fun '(w', _) => L w' = L w.

End Specification.

(** ** Hash helpers of [BaseUtilities.h]

    [uint64_t] values are [Z] in the range of the type; products wrap
    modulo 2^64, which [to_uint64] writes out, and exclusive or and right
    shift of values in range stay in range. *)

(** Conversion to [uint64_t]: the value modulo 2^64. *)
Definition to_uint64 (z : Z) : Z := (z mod 2 ^ 64)%Z.

(** [Hash(uint8_t)], [Hash(uint16_t)], [Hash(uint32_t)], [Hash(uint64_t)]:
    the value, widened. *)
Definition Hash_uint8 (v : Z) : Z := v.
Definition Hash_uint16 (v : Z) : Z := v.
Definition Hash_uint32 (v : Z) : Z := v.
Definition Hash_uint64 (v : Z) : Z := v.

(** [Hash(int32_t)]: the signed value converted to [uint64_t]. *)
Definition Hash_int32 (v : Z) : Z := to_uint64 v.

Definition HashMix (x y : Z) : Z :=
  let K := 0x9ddfea08eb382d69%Z in
  let r1 := to_uint64 (K * Z.lxor x y) in
  let r2 := Z.lxor r1 (Z.shiftr r1 47) in
  let r3 := to_uint64 (Z.lxor y r2 * K) in
  to_uint64 (K * Z.lxor r3 (Z.shiftr r3 47)).

(** [HashMulti]: the template picks [Hash] by argument type; here the
    overloads chosen are arguments. *)
Definition HashMulti2 {T1 T2} (Hash1 : T1 -> Z) (Hash2 : T2 -> Z) (a : T1) (b : T2) : Z :=
  HashMix (Hash1 a) (Hash2 b).

Definition HashMulti3 {T1 T2 T3} (Hash1 : T1 -> Z) (Hash2 : T2 -> Z) (Hash3 : T3 -> Z)
    (a : T1) (b : T2) (c : T3) : Z :=
  let h1 := HashMix (Hash1 a) (Hash2 b) in
  HashMix h1 (Hash3 c).

Definition HashMulti4 {T1 T2 T3 T4} (Hash1 : T1 -> Z) (Hash2 : T2 -> Z)
    (Hash3 : T3 -> Z) (Hash4 : T4 -> Z) (a : T1) (b : T2) (c : T3) (d : T4) : Z :=
  let h1 := HashMix (Hash1 a) (Hash2 b) in
  let h2 := HashMix h1 (Hash3 c) in
  HashMix h2 (Hash4 d).

Definition is_uint64 (z : Z) : Prop := (0 <= z < 2 ^ 64)%Z.
Definition is_int32 (z : Z) : Prop := (- 2 ^ 31 <= z < 2 ^ 31)%Z.

(** The inverse of the multiplier modulo 2^64, and the steps of [HashMix]
    run backwards. *)
Definition K_inverse : Z := 0xdc56e6f5090b32d9%Z.

Definition xorshift47 (r : Z) : Z := Z.lxor r (Z.shiftr r 47).

Definition HashMix_undo (h y : Z) : Z :=
  let g3 := to_uint64 (K_inverse * h) in
  let r3 := xorshift47 g3 in
  let v := to_uint64 (r3 * K_inverse) in
  let r2 := Z.lxor y v in
  let r1 := xorshift47 r2 in
  let u := to_uint64 (K_inverse * r1) in
  Z.lxor u y.

(** ** Vocabulary for the life cycle of the manager *)

Section Lifecycle.

Context `{PhaseBits} `{LuaCode}.

(** Two worlds with the same registry, flags and collaborators; the pool,
    the heap, the Lua stack and the console may differ. *)
Definition same_registry (w w' : World) : Prop :=
  subscribers_ (callbacks w') = subscribers_ (callbacks w)
  /\ nameSubscriberRefs_ (callbacks w') = nameSubscriberRefs_ (callbacks w)
  /\ nodeSubscriberRefs_ (callbacks w') = nodeSubscriberRefs_ (callbacks w)
  /\ storyLoaded_ (callbacks w') = storyLoaded_ (callbacks w)
  /\ osirisHooked_ (callbacks w') = osirisHooked_ (callbacks w)
  /\ merging_ (callbacks w') = merging_ (callbacks w)
  /\ story w' = story w
  /\ osiris w' = osiris w
  /\ luaAvailable w' = luaAvailable w.

(** A relation between the state before and the state after, read off the
    result of a run. *)
Definition related (R : World -> World -> Prop) (w : World)
    : World * list Invocation -> Prop :=
  fun '(w', _) => R w w'.

(** The node-map entry a name-map entry gives rise to, if its signature
    resolves. *)
Definition resolved_entry (st : Story) (it : OsirisHookSignature * nat) : option (Z * nat) :=
  (fun nodeRef => (nodeRef, it.2)) <$> resolve st it.1.

(** The node map holds one entry for each name-map entry that resolves in
    the loaded story, and is empty before the first load. *)
Definition node_map_derived (w : World) : Prop :=
  nodeSubscriberRefs_ (callbacks w)
  ≡ₚ if storyLoaded_ (callbacks w)
     then omap (resolved_entry (story w)) (nameSubscriberRefs_ (callbacks w))
     else [].

(** What the manager has asked of the extender so far. *)
Definition installation (w : World) : list ExtenderCall :=
  if osirisHooked_ (callbacks w)
  then [HookNodeVMTs; BindCallbackManager true]
  else [].

(** Between two states the latch either stayed as it was, with nothing asked
    of the extender, or went from unset to set with one installation. *)
Definition latch (w w' : World) : Prop :=
  (osirisHooked_ (callbacks w') = osirisHooked_ (callbacks w) /\ osiris w' = osiris w)
  \/ (osirisHooked_ (callbacks w) = false
      /\ osirisHooked_ (callbacks w') = true
      /\ osiris w' = osiris w ++ [HookNodeVMTs; BindCallbackManager true]).

(** The diagnostic a registration writes, by the kind of the symbol found
    and the phase asked for; none when the registration is accepted. *)
Definition registration_report (st : Story) (sig : OsirisHookSignature) : list Diagnostic :=
  match LookupBacking st sig with
  | None => [WarnSymbolNotFound (name sig) (arity sig)]
  | Some func =>
      match Type_ func with
      | Event | Call =>
          match type sig with
          | BeforeTrigger | AfterTrigger => []
          | BeforeDeleteTrigger | AfterDeleteTrigger =>
              [WarnDeleteTriggers (name sig) (arity sig)]
          end
      | Query | Database | Proc | UserQuery =>
          if Get (Node func) then [] else [WarnSymbolKind (name sig) (arity sig)]
      | OtherFunction => [WarnSymbolKind (name sig) (arity sig)]
      end
  end.

(** The node reference a hook hands to [RunHandlers], and the overload it
    calls. *)
Definition hook_nodeRef (h : Hook) : Z :=
  match h with
  | OnInsertPre node _ deleted =>
      if deleted then Z.lor node DeleteTriggerNodeRef else node
  | OnInsertPost node _ deleted =>
      if deleted
      then Z.lor (Z.lor node AfterTriggerNodeRef) DeleteTriggerNodeRef
      else Z.lor node AfterTriggerNodeRef
  | OnCallQueryPre node _ => node
  | OnCallQueryPost node _ _ => Z.lor node AfterTriggerNodeRef
  | OnCallPre functionId _ | OnEventPre functionId _ =>
      Z.lor functionId BeforeFunctionRef
  | OnCallPost functionId _ _ | OnEventPost functionId _ =>
      Z.lor functionId AfterFunctionRef
  end.

Definition hook_has_tuple (h : Hook) : bool :=
  match h with
  | OnInsertPre _ _ _ | OnInsertPost _ _ _ => true
  | _ => false
  end.


(** The message [RunHandler] writes after the protected call, by the way
    the handler ended. *)
Definition handler_report (r : CallResult) : list Diagnostic :=
  match r with
  | Returns => []
  | ScriptError _ => [ErrHandlerFailed]
  | NativeFault [] => [ErrInternal]
  | NativeFault (_ :: _) => [ErrCallbackFailed]
  end.

(** Modelled from the spec: [GameDelete], the game allocator's release,
    which is not part of the source.  [live] holds the addresses that are
    allocated; releasing an address that is not among them is an error. *)
Definition GameDelete (entry : nat) (live : list nat) : option (list nat) :=
  if decide (entry ∈ live) then Some (filter (fun a => a <> entry) live) else None.

(** [~PendingCallbackManager]: every pooled array is released, in the
    order of [cache_]. *)
Definition PendingCallbackManager_delete (p : PendingCallbackManager)
    (live : list nat) : option (list nat) :=
  foldl (fun st entry => st ≫= GameDelete entry) (Some live) (cache_ p).

(** The addresses the allocator has handed out. *)
Definition allocated (w : World) : list nat := seq 0 (length (arrays w)).

End Lifecycle.

(** ** A sample story and sample handlers

    Values chosen for the phase bits, a small symbol table, and the Lua
    code behind a few handler references, used to run the model. *)

Module Example.

Definition bits : PhaseBits := {|
  BeforeFunctionRef := 0x2000000000000000;
  AfterFunctionRef := 0xA000000000000000;
  AfterTriggerNodeRef := 0x8000000000000000;
  DeleteTriggerNodeRef := 0x4000000000000000 |}.

Definition symbol (n : string) (a : Z) (n' : string) (a' : Z) : bool :=
  String.eqb n n' && Z.eqb a a'.

Definition sample_story : Story := fun n a =>
  if symbol n a "DB_Foo" 2 then Some (mkFunction Database 40 (mkNodeRef 17 true))
  else if symbol n a "Ev" 1 then Some (mkFunction Event 5 (mkNodeRef 0 false))
  else if symbol n a "QRY_Is" 1 then Some (mkFunction UserQuery 41 (mkNodeRef 0 false))
  else if symbol n a "QRY_Is__DEF__" 1 then Some (mkFunction Database 42 (mkNodeRef 23 true))
  else if symbol n a "IsTagged" 2 then Some (mkFunction Query 43 (mkNodeRef 31 true))
  else None.

Definition code : LuaCode := fun h args =>
  match h with
  | 1 => mkScript [DoSubscribe "DB_Foo" 2 BeforeTrigger 9] Returns
  | 2 => mkScript [] (ScriptError "boom")
  | 3 => mkScript [DoEngine (OnEventPre 5 [1%Z])] (NativeFault [LOther; LOther])
  | _ => mkScript [] Returns
  end.

Definition fresh : World :=
  mkWorld OsirisCallbackManager_new [] sample_story [] true [LOther] [].

Definition loaded : World := @StoryLoaded bits [] fresh.

Definition three_on_DB_Foo : World :=
  @Subscribe bits "DB_Foo" 2 BeforeTrigger 6
    (@Subscribe bits "DB_Foo" 2 BeforeTrigger 5
       (@Subscribe bits "DB_Foo" 2 BeforeTrigger 4 loaded)).


Definition merging : World :=
  StorySetMerging true
    (@Subscribe bits "DB_Foo" 2 BeforeTrigger 4
       (@Subscribe bits "IsTagged" 2 BeforeTrigger 4 loaded)).

(** The value an outcome carries, or [d] when it carries none. *)
Definition landing {A} (o : Outcome A) (d : A) : A :=
  match o with
  | Done a => a
  | _ => d
  end.

End Example.

(** Further sample inputs: the insert hooks of two of the story's nodes,
    and the state one firing leaves behind. *)

Module Scenario.
Import Example.

Definition insert_DB_Foo : Hook := OnInsertPre 17 (Some [1; 2]%Z) false.

(** The state after one firing of [insert_DB_Foo] with three subscribers. *)
Definition fired : World :=
  (landing (@fire bits code 1 insert_DB_Foo three_on_DB_Foo) (three_on_DB_Foo, [])).1.


End Scenario.

(** ** Properties *)

Section Registry.
Context `{PhaseBits} `{LuaCode}.

Lemma RegisterNodeHandler_nodes sig handlerId w :
  nodeSubscriberRefs_ (callbacks (RegisterNodeHandler sig handlerId w)) =
  match resolve (story w) sig with
  | Some nodeRef => nodeSubscriberRefs_ (callbacks w) ++ [(nodeRef, handlerId)]
  | None => nodeSubscriberRefs_ (callbacks w)
  end.
Proof.
  unfold RegisterNodeHandler, resolve, accepted, spec_node_reference,
    is_event_or_call, phase_is_after, phase_is_delete.
  destruct (LookupBacking (story w) sig) as [func|]; [|done].
  destruct (not_hookable func); [done|]. simpl.
  destruct (Type_ func), (type sig); simpl; try done;
    rewrite ?Z.lor_0_r; done.
Qed.

(** C5.  Whenever [RegisterNodeHandler] resolves a subscription, the pair
    it adds to the node map carries the node reference of the phase-bit
    encoding: for an event or a call the function id or-ed with the
    before-function bit (phase Before) or the after-function bit (phase
    After), for a node-backed symbol the node id or-ed with the after bit
    exactly for the phases After and AfterDelete and with the delete bit
    exactly for BeforeDelete and AfterDelete.  Nothing is added when the
    symbol is unknown, cannot be hooked, or is an event or call asked for a
    delete phase. *)
Theorem node_reference_encoding sig handlerId w :
  nodeSubscriberRefs_ (callbacks (RegisterNodeHandler sig handlerId w)) =
  match LookupBacking (story w) sig with
  | Some func =>
      if accepted func (type sig)
      then nodeSubscriberRefs_ (callbacks w)
             ++ [(spec_node_reference func (type sig), handlerId)]
      else nodeSubscriberRefs_ (callbacks w)
  | None => nodeSubscriberRefs_ (callbacks w)
  end.
Proof.
  rewrite RegisterNodeHandler_nodes. unfold resolve.
  destruct (LookupBacking (story w) sig) as [func|]; [|done].
  by destruct (accepted func (type sig)).
Qed.

(** What [RegisterNodeHandler] leaves alone. *)
Lemma RegisterNodeHandler_frame sig handlerId w :
  let w' := RegisterNodeHandler sig handlerId w in
  subscribers_ (callbacks w') = subscribers_ (callbacks w)
  /\ nameSubscriberRefs_ (callbacks w') = nameSubscriberRefs_ (callbacks w)
  /\ pendingCallbacks_ (callbacks w') = pendingCallbacks_ (callbacks w)
  /\ storyLoaded_ (callbacks w') = storyLoaded_ (callbacks w)
  /\ osirisHooked_ (callbacks w') = osirisHooked_ (callbacks w)
  /\ merging_ (callbacks w') = merging_ (callbacks w)
  /\ arrays w' = arrays w /\ story w' = story w /\ osiris w' = osiris w
  /\ luaAvailable w' = luaAvailable w /\ L w' = L w.
Proof.
  unfold RegisterNodeHandler.
  destruct (LookupBacking (story w) sig) as [func|]; [|done].
  destruct (not_hookable func); [done|].
  repeat case_match; done.
Qed.

Lemma HookOsiris_frame w :
  let w' := HookOsiris w in
  subscribers_ (callbacks w') = subscribers_ (callbacks w)
  /\ nameSubscriberRefs_ (callbacks w') = nameSubscriberRefs_ (callbacks w)
  /\ nodeSubscriberRefs_ (callbacks w') = nodeSubscriberRefs_ (callbacks w)
  /\ pendingCallbacks_ (callbacks w') = pendingCallbacks_ (callbacks w)
  /\ storyLoaded_ (callbacks w') = storyLoaded_ (callbacks w)
  /\ merging_ (callbacks w') = merging_ (callbacks w)
  /\ arrays w' = arrays w /\ story w' = story w
  /\ luaAvailable w' = luaAvailable w /\ L w' = L w /\ console w' = console w.
Proof. unfold HookOsiris. by destruct (osirisHooked_ (callbacks w)). Qed.

(** C8.  Calling [HookOsiris] twice in a row leaves exactly one
    installation: the first call on an unhooked manager hooks the node VMTs
    once, binds the manager once and sets the latch; every later call, any
    number of them, changes nothing. *)
Theorem HookOsiris_latch w :
  HookOsiris (HookOsiris w) = HookOsiris w
  /\ osirisHooked_ (callbacks (HookOsiris w)) = true
  /\ (osirisHooked_ (callbacks w) = false ->
      osiris (HookOsiris (HookOsiris w))
      = osiris w ++ [HookNodeVMTs; BindCallbackManager true])
  /\ (osirisHooked_ (callbacks w) = true -> HookOsiris w = w)
  /\ (forall k, Nat.iter k HookOsiris (HookOsiris w) = HookOsiris w).
Proof.
  assert (HookOsiris (HookOsiris w) = HookOsiris w) as Htwice.
  { unfold HookOsiris. destruct (osirisHooked_ (callbacks w)) eqn:E; simpl.
    - by rewrite E.
    - done. }
  split_and!.
  - exact Htwice.
  - unfold HookOsiris. by destruct (osirisHooked_ (callbacks w)) eqn:E.
  - intros E. rewrite Htwice. unfold HookOsiris. rewrite E. simpl.
    by rewrite <- app_assoc.
  - intros E. unfold HookOsiris. by rewrite E.
  - intros k. induction k as [|k IH]; [done|]. simpl. by rewrite IH.
Qed.

(** C9.  The post-call hooks for queries and for plain calls dispatch the
    same way whatever their [succeeded] argument is: for a fixed node or
    function id, argument list and state, the resulting state and the
    handlers invoked, in order, are those of the other value of the flag. *)
Theorem post_hooks_ignore_succeeded call node functionId args w :
  CallQueryPostHook call node args true w = CallQueryPostHook call node args false w
  /\ CallPostHook call functionId args true w = CallPostHook call functionId args false w
  /\ (forall fuel,
        fire fuel (OnCallQueryPost node args true) w
        = fire fuel (OnCallQueryPost node args false) w
        /\ fire fuel (OnCallPost functionId args true) w
           = fire fuel (OnCallPost functionId args false) w).
Proof. done. Qed.

Lemma Subscribe_outcome n a t handler w :
  let w' := Subscribe n a t handler w in
  subscribers_ (callbacks w') = subscribers_ (callbacks w) ++ [handler]
  /\ nameSubscriberRefs_ (callbacks w')
     = Multimap.insert (mkSig n a t) (length (subscribers_ (callbacks w)))
         (nameSubscriberRefs_ (callbacks w))
  /\ (forall func,
        storyLoaded_ (callbacks w) = true ->
        LookupBacking (story w) (mkSig n a t) = Some func ->
        is_event_or_call func = true ->
        phase_is_delete t = true ->
        nodeSubscriberRefs_ (callbacks w') = nodeSubscriberRefs_ (callbacks w)
        /\ console w' = console w ++ [WarnDeleteTriggers n a])
  /\ (resolve (story w) (mkSig n a t) = None ->
      nodeSubscriberRefs_ (callbacks w') = nodeSubscriberRefs_ (callbacks w)).
Proof.
  unfold Subscribe. simpl.
  destruct (storyLoaded_ (callbacks w)) eqn:Hl; simpl.
  - match goal with |- context [RegisterNodeHandler ?s ?i (HookOsiris ?x)] =>
      pose proof (RegisterNodeHandler_frame s i (HookOsiris x)) as Hf;
      pose proof (RegisterNodeHandler_nodes s i (HookOsiris x)) as Hn;
      pose proof (HookOsiris_frame x) as Hh;
      set (w1 := x) in *
    end.
    simpl in Hf, Hh. destruct Hf as (-> & -> & _).
    destruct Hh as (-> & -> & Hnodes & _ & _ & _ & _ & Hst & _ & _ & Hc).
    split_and!; try done.
    + intros func _ Hfunc Hev Hdel.
      rewrite Hn, Hst, Hnodes. unfold resolve. simpl. rewrite Hfunc.
      unfold accepted. rewrite Hev, Hdel, andb_false_r. split; [done|].
      unfold RegisterNodeHandler. rewrite Hst. simpl. rewrite Hfunc.
      unfold is_event_or_call in Hev.
      destruct (not_hookable func) eqn:Hnh.
      { unfold not_hookable in Hnh. destruct (Type_ func); simpl in *; done. }
      rewrite Hev. unfold phase_is_delete in Hdel.
      destruct t; simpl in *; try done; unfold OsiWarn, report; simpl; by rewrite Hc.
    + intros Hr. rewrite Hn, Hst. simpl. rewrite Hr. done.
  - split_and!; try done.
Qed.

(** C6.  [Subscribe] always succeeds: the handler is appended to the
    handler list and the signature enters the name map under the new
    handler's index, also when resolution fails.  In particular a delete
    phase asked for an event or a call is turned down with the diagnostic
    only, the node map stays as it was, and a running handler that
    subscribes never stops the dispatch. *)
Theorem Subscribe_always_succeeds n a t handler w :
  let w' := Subscribe n a t handler w in
  subscribers_ (callbacks w') = subscribers_ (callbacks w) ++ [handler]
  /\ nameSubscriberRefs_ (callbacks w')
     = Multimap.insert (mkSig n a t) (length (subscribers_ (callbacks w)))
         (nameSubscriberRefs_ (callbacks w))
  /\ (forall func,
        storyLoaded_ (callbacks w) = true ->
        LookupBacking (story w) (mkSig n a t) = Some func ->
        is_event_or_call func = true ->
        phase_is_delete t = true ->
        nodeSubscriberRefs_ (callbacks w') = nodeSubscriberRefs_ (callbacks w)
        /\ console w' = console w ++ [WarnDeleteTriggers n a])
  /\ (resolve (story w) (mkSig n a t) = None ->
      nodeSubscriberRefs_ (callbacks w') = nodeSubscriberRefs_ (callbacks w))
  /\ (forall call,
        perform call (DoSubscribe n a t handler) w = Done (w', [])).
Proof.
  cbv zeta.
  destruct (Subscribe_outcome n a t handler w) as (Hs & Hn & Hdel & Hnone).
  split_and!; [exact Hs|exact Hn|exact Hdel|exact Hnone|done].
Qed.
End Registry.

Section Pool.
Context `{PhaseBits} `{LuaCode}.

Lemma foldl_Array_Add entry range heap :
  foldl (fun h v => Array_Add entry v h) heap range
  = alter (fun a => a ++ range) entry heap.
Proof.
  revert heap. induction range as [|v range IH]; intros heap; simpl.
  - symmetry. apply list_eq. intros i.
    destruct (decide (i = entry)) as [->|Hne].
    + rewrite list_lookup_alter_eq. destruct (heap !! entry); simpl; [|done].
      by rewrite app_nil_r.
    + by rewrite list_lookup_alter_ne.
  - rewrite IH. unfold Array_Add. apply list_eq. intros i.
    destruct (decide (i = entry)) as [->|Hne].
    + rewrite !list_lookup_alter_eq. destruct (heap !! entry); simpl; [|done].
      by rewrite <- app_assoc.
    + by rewrite !list_lookup_alter_ne.
Qed.

Lemma Enter_fill entry range (heap : list (list nat)) :
  entry < length heap ->
  foldl (fun h v => Array_Add entry v h) (<[entry := []]> heap) range
  = <[entry := range]> heap.
Proof.
  intros Hlt. rewrite foldl_Array_Add. apply list_eq. intros i.
  destruct (decide (i = entry)) as [->|Hne].
  - rewrite list_lookup_alter_eq, !list_lookup_insert_eq by done. done.
  - rewrite list_lookup_alter_ne, !list_lookup_insert_ne by done. done.
Qed.

(** [Enter] on a pool in good shape. *)
Lemma Enter_spec range p (heap : list (list nat)) :
  depth_ p <= length (cache_ p) ->
  NoDup (cache_ p) ->
  Forall (fun a => a < length heap) (cache_ p) ->
  exists entry cache' heap',
    Enter range p heap = Done (entry, mkPending cache' (S (depth_ p)), heap')
    /\ cache' !! depth_ p = Some entry
    /\ heap' !! entry = Some range
    /\ cache_ p `prefix_of` cache'
    /\ NoDup cache'
    /\ Forall (fun a => a < length heap') cache'
    /\ length heap <= length heap'
    /\ (forall i a, i < depth_ p -> cache_ p !! i = Some a -> heap' !! a = heap !! a).
Proof.
  intros Hd Hnd Hb. unfold Enter, GameAlloc.
  case_bool_decide as Hfull.
  - assert (depth_ p = length (cache_ p)) as Hlen by lia.
    assert ((cache_ p ++ [length heap]) !! depth_ p = Some (length heap)) as Hlk.
    { rewrite Hlen. apply list_lookup_middle. done. }
    rewrite Hlk.
    assert ((heap ++ [[]]) !! length heap = Some []) as Hh.
    { apply list_lookup_middle. done. }
    rewrite Hh. rewrite Enter_fill by (rewrite length_app; simpl; lia).
    eexists _, _, _. split; [done|]. split_and!.
    + done.
    + rewrite list_lookup_insert_eq; [done|]. rewrite length_app. simpl. lia.
    + by apply prefix_app_r.
    + apply NoDup_app. split_and!; [done| |apply NoDup_singleton].
      intros a Ha Hin. apply list_elem_of_singleton in Hin. subst.
      rewrite Forall_forall in Hb. specialize (Hb _ Ha). lia.
    + rewrite length_insert, length_app. simpl. apply Forall_app. split.
      * eapply Forall_impl; [exact Hb|]. simpl. lia.
      * apply Forall_singleton. lia.
    + rewrite length_insert, length_app. simpl. lia.
    + intros i a Hi Ha.
      assert (a < length heap) as Hlt.
      { rewrite Forall_forall in Hb. apply Hb. by eapply list_elem_of_lookup_2. }
      rewrite list_lookup_insert_ne by lia. by rewrite lookup_app_l.
  - assert (depth_ p < length (cache_ p)) as Hlt by lia.
    destruct (lookup_lt_is_Some_2 _ _ Hlt) as [entry Hentry]. rewrite Hentry.
    assert (entry < length heap) as Hentry_lt.
    { rewrite Forall_forall in Hb. apply Hb. by eapply list_elem_of_lookup_2. }
    destruct (lookup_lt_is_Some_2 _ _ Hentry_lt) as [old Hold]. rewrite Hold.
    rewrite Enter_fill by done.
    eexists _, _, _. split; [done|]. split_and!.
    + done.
    + by rewrite list_lookup_insert_eq.
    + done.
    + done.
    + by rewrite length_insert.
    + by rewrite length_insert.
    + intros i a Hi Ha. rewrite list_lookup_insert_ne; [done|].
      intros ->. assert (depth_ p = i); [|lia].
      eapply NoDup_lookup; eauto.
  Qed.

Lemma Exit_spec v cache d :
  cache !! d = Some v ->
  Exit v (mkPending cache (S d)) = Done (mkPending cache d).
Proof.
  intros Hv. unfold Exit. cbn [depth_ cache_].
  replace (S d - 1) with d by lia.
  rewrite (bool_decide_eq_true_2 (0 < S d)) by lia.
  rewrite bool_decide_eq_true_2 by done. done.
Qed.

(** C7.  [Exit] asserts that the depth is positive and that the handle is
    the array entered last, the one in slot [depth - 1]; when it holds the
    depth goes down by one.  An [Exit] that follows its [Enter] satisfies
    the assertion and restores the depth; an [Exit] at depth zero, with a
    foreign handle, or out of LIFO order (the outer handle while the inner
    firing is still entered) violates it. *)
Theorem Exit_assertion :
  (forall v p,
     Exit v p =
     if decide (0 < depth_ p /\ cache_ p !! (depth_ p - 1) = Some v)
     then Done (mkPending (cache_ p) (depth_ p - 1))
     else Crash AssertionFailed)
  /\ (forall range p heap v p' heap',
        Enter range p heap = Done (v, p', heap') ->
        depth_ p' = S (depth_ p)
        /\ Exit v p' = Done (mkPending (cache_ p') (depth_ p)))
  /\ (forall v p,
        depth_ p = 0 \/ cache_ p !! (depth_ p - 1) <> Some v ->
        Exit v p = Crash AssertionFailed)
  /\ (forall r1 r2 p heap v1 p1 heap1 v2 p2 heap2,
        depth_ p <= length (cache_ p) ->
        NoDup (cache_ p) ->
        Forall (fun a => a < length heap) (cache_ p) ->
        Enter r1 p heap = Done (v1, p1, heap1) ->
        Enter r2 p1 heap1 = Done (v2, p2, heap2) ->
        Exit v1 p2 = Crash AssertionFailed
        /\ (let* q := Exit v2 p2 in Exit v1 q) = Done (mkPending (cache_ p2) (depth_ p))).
Proof.
  split_and!.
  - intros v p. unfold Exit. case_decide as Hd.
    + destruct Hd as [Hd Hv].
      by rewrite !bool_decide_eq_true_2.
    + apply not_and_l in Hd. destruct Hd as [Hd|Hd].
      * by rewrite bool_decide_eq_false_2.
      * rewrite (bool_decide_eq_false_2 (_ = _)) by done. by rewrite andb_false_r.
  - intros range p heap v p' heap' HE. unfold Enter in HE.
    repeat case_match; simplify_eq; simpl; split; try done; by apply Exit_spec.
  - intros v p [Hd|Hv]; unfold Exit.
    + rewrite bool_decide_eq_false_2; [done|lia].
    + rewrite (bool_decide_eq_false_2 (_ = _)) by done. by rewrite andb_false_r.
  - intros r1 r2 p heap v1 p1 heap1 v2 p2 heap2 Hd Hnd Hb H1 H2.
    destruct (Enter_spec r1 p heap Hd Hnd Hb)
      as (e1 & c1 & h1 & HE1 & Hc1 & _ & Hp1 & Hnd1 & Hb1 & _).
    rewrite H1 in HE1. simplify_eq.
    assert (S (depth_ p) <= length c1) as Hd1.
    { apply lookup_lt_Some in Hc1. lia. }
    destruct (Enter_spec r2 (mkPending c1 (S (depth_ p))) h1 Hd1 Hnd1 Hb1)
      as (e2 & c2 & h2 & HE2 & Hc2 & _ & Hp2 & Hnd2 & _).
    rewrite H2 in HE2. simplify_eq. simpl in *.
    assert (c2 !! depth_ p = Some e1) as Hc12.
    { eapply prefix_lookup_Some; eauto. }
    split.
    + unfold Exit. cbn [depth_ cache_].
      replace (S (S (depth_ p)) - 1) with (S (depth_ p)) by lia.
      rewrite (bool_decide_eq_false_2 (_ = _)); [by rewrite andb_false_r|].
      rewrite Hc2. intros [= ->].
      pose proof (NoDup_lookup _ _ _ _ Hnd2 Hc2 Hc12). lia.
    + rewrite (Exit_spec _ _ _ Hc2). simpl. by apply Exit_spec.
Qed.
End Pool.

Section Frames.
Context `{PhaseBits} `{LuaCode}.

Lemma extends_refl w : extends w w.
Proof. split; try done. Qed.

Lemma extends_trans w1 w2 w3 : extends w1 w2 -> extends w2 w3 -> extends w1 w3.
Proof.
  intros H12 H23. split.
  - etrans; [apply H12|apply H23].
  - etrans; [apply H12|apply H23].
  - etrans; [apply H12|apply H23].
  - etrans; [apply H23|apply H12].
  - etrans; [apply H12|apply H23].
  - intros i a Hi Ha. etrans.
    + eapply (ext_live _ _ H23 i).
      * rewrite (ext_depth _ _ H12). done.
      * eapply prefix_lookup_Some; [done|apply H12].
    + by eapply (ext_live _ _ H12).
  - etrans; [apply H12|apply H23].
  - etrans; [apply H23|apply H12].
  - etrans; [apply H23|apply H12].
  - etrans; [apply H23|apply H12].
  - etrans; [apply H23|apply H12].
Qed.


Lemma same_core_wf w w' : same_core w w' -> wf w -> wf w'.
Proof.
  intros (Hc & Ha & _) Hwf. unfold wf, pool_ok, indices_valid in *.
  by rewrite Hc, Ha.
Qed.

Lemma same_core_extends_l w0 w w' : same_core w w' -> extends w w0 -> extends w' w0.
Proof.
  intros (Hc & Ha & Hs & Hl) []. split; rewrite ?Hc, ?Ha, ?Hs, ?Hl; try done.
Qed.

Lemma same_core_extends_r w0 w w' : same_core w w' -> extends w0 w -> extends w0 w'.
Proof.
  intros (Hc & Ha & Hs & Hl) []. split; rewrite ?Hc, ?Ha, ?Hs, ?Hl; try done.
Qed.

Lemma push_args args w n :
  foldl (fun '(w, n) v => (OsiToLua v w, S n)) (w, n) args
  = (set_L (reverse (LArg <$> args) ++ L w) w, n + length args).
Proof.
  revert w n. induction args as [|v args IH]; intros w n; simpl.
  - destruct w. unfold set_L. simpl. by rewrite Nat.add_0_r.
  - rewrite IH. f_equal; [|lia]. unfold set_L, OsiToLua. simpl.
    by rewrite reverse_cons, <- app_assoc.
Qed.

Lemma count_args (args : list OsiValue) (n : Z) :
  foldl (fun n _ => n + 1)%Z n args = (n + Z.of_nat (length args))%Z.
Proof.
  revert n. induction args as [|v args IH]; intros n; simpl; [lia|].
  rewrite IH. lia.
Qed.

Lemma pushed_function (args : list OsiValue) func (stack : list LuaValue) :
  (reverse (LArg <$> args) ++ LFunction func :: stack) !! length args
  = Some (LFunction func).
Proof. apply list_lookup_middle. by rewrite length_reverse, length_fmap. Qed.

Lemma pushed_base (args : list OsiValue) func (stack : list LuaValue) :
  drop (S (length args)) (reverse (LArg <$> args) ++ LFunction func :: stack) = stack.
Proof.
  rewrite (cons_middle _ (reverse _)), app_assoc.
  apply drop_app_length'.
  rewrite length_app, length_reverse, length_fmap. simpl. lia.
Qed.
End Frames.

Section DispatchProofs.
Context `{PhaseBits} `{LuaCode}.

Lemma registers_extends_r w w1 w2 inv :
  extends w1 w2 -> registers w w1 inv -> registers w w2 inv.
Proof.
  intros Hext Hreg. destruct inv as [h a nested]. unfold registers, registered in *.
  intros n ar ty hnew nodeRef Hin Hl Hres.
  destruct (Hreg n ar ty hnew nodeRef Hin Hl Hres) as (idx & Hidx & Hnode & Hsub).
  exists idx. split_and!; [done| |].
  - destruct (ext_nodes _ _ Hext) as [k ->]. apply elem_of_app. by left.
  - eapply prefix_lookup_Some; [done|apply Hext].
Qed.

Lemma registers_extends_l w0 w w' inv :
  extends w0 w -> registers w w' inv -> registers w0 w' inv.
Proof.
  intros Hext Hreg. destruct inv as [h a nested]. unfold registers, registered in *.
  intros n ar ty hnew nodeRef Hin Hl Hres.
  rewrite <- (ext_storyLoaded _ _ Hext) in Hl.
  rewrite <- (ext_story _ _ Hext) in Hres.
  destruct (Hreg n ar ty hnew nodeRef Hin Hl Hres) as (idx & Hidx & Hnode & Hsub).
  exists idx. split_and!; [|done..].
  pose proof (prefix_length _ _ (ext_subscribers _ _ Hext)). lia.
Qed.


Variable call : nat -> World -> Outcome (CallStatus * World * list Invocation).
Variable Q : RegistryEntry -> Prop.
Hypothesis call_spec : forall n w, wf w -> safe (call_post n w) (call n w).
Hypothesis call_total : forall n w h,
  wf w -> L w !! n = Some (LFunction h) -> Q h -> call n w <> OutOfFuel.

Lemma RunHandler_tuple_args func tuple w :
  RunHandler_tuple call func tuple w
  = RunHandler_args call func (default [] tuple) w.
Proof. by destruct tuple. Qed.

Lemma RunHandler_args_spec func args w :
  wf w ->
  safe (handler_post func w) (RunHandler_args call func args w)
  /\ (Q func -> RunHandler_args call func args w <> OutOfFuel).
Proof.
  intros Hwf. unfold RunHandler_args, lua_checkstack.
  rewrite push_args. simpl.
  set (w0 := set_L _ (Push func w)).
  assert (same_core w w0) as Hcore by done.
  assert (wf w0) as Hwf0 by (by eapply same_core_wf).
  pose proof (call_spec (length args) w0 Hwf0) as Hc.
  pose proof (call_total (length args) w0 func Hwf0 (pushed_function _ _ _)) as Ht.
  destruct (call (length args) w0) as [[[st w1] t]| |]; simpl in *;
    [|split; [done|intros HQ; by destruct (Ht HQ)]|done].
  destruct Hc as (Hwf1 & Hext & Hstack & Ht1).
  destruct (Ht1 func (pushed_function _ _ _)) as (a & nested & -> & Hreg).
  change (registers w w1 (Invoked func a nested)) in Hreg.
  unfold stack_law in Hstack. rewrite pushed_base in Hstack.
  assert (same_core w0 w) as Hback by done.
  apply (same_core_extends_l _ _ _ Hback) in Hext.
  destruct st as [code|]; simpl in Hstack.
  - destruct (decide (code <> 0)%Z).
    + destruct Hstack as [e He]. split; [|done]. simpl. split_and!.
      * by eapply same_core_wf; [|exact Hwf1].
      * by eapply same_core_extends_r; [|exact Hext].
      * simpl. rewrite He. done.
      * eauto.
    + split; [|done]. simpl. split_and!; eauto.
  - destruct Hstack as [residue Hres].
    unfold lua_gettop. simpl. rewrite Hres, length_app.
    destruct (decide _) as [Hpos|Hzero].
    + split; [|done]. simpl. split_and!.
      * by eapply same_core_wf; [|exact Hwf1].
      * by eapply same_core_extends_r; [|exact Hext].
      * simpl. rewrite Hres.
        replace (Z.to_nat _) with (length residue) by lia.
        by rewrite drop_app_length.
      * eauto.
    + split; [|done]. simpl. split_and!.
      * by eapply same_core_wf; [|exact Hwf1].
      * by eapply same_core_extends_r; [|exact Hext].
      * simpl. rewrite Hres. destruct residue; [done|simpl in *; lia].
      * eauto.
Qed.

Lemma omap_lookup_prefix (subs subs' : list RegistryEntry) (l : list nat) :
  subs `prefix_of` subs' ->
  Forall (fun idx => idx < length subs) l ->
  omap (fun idx => subs' !! idx) l = omap (fun idx => subs !! idx) l.
Proof.
  intros Hp Hl. induction Hl as [|idx l Hidx Hl IH]; [done|]. simpl.
  destruct (lookup_lt_is_Some_2 _ _ Hidx) as [h Hh].
  rewrite Hh, (prefix_lookup_Some _ _ _ _ Hh Hp). simpl. f_equal. exact IH.
Qed.

Lemma for_each_index_ext run run' indices n i w :
  (forall func w, run func w = run' func w) ->
  for_each_index run indices n i w = for_each_index run' indices n i w.
Proof.
  intros Hrun. revert i w. induction n as [|n IH]; intros i w; simpl; [done|].
  destruct (arrays w !! indices ≫= _) as [index|]; [|done].
  destruct (subscribers_ (callbacks w) !! index) as [func|]; [|done].
  rewrite Hrun. destruct (run' func w) as [[w1 t1]| |]; simpl; [|done..].
  by rewrite IH.
Qed.

Section Loop.
Variable run : RegistryEntry -> World -> Outcome (World * list Invocation).
Hypothesis run_spec : forall func w,
  wf w -> safe (handler_post func w) (run func w).
Hypothesis run_total : forall func w,
  wf w -> Q func -> run func w <> OutOfFuel.

Lemma for_each_index_spec n : forall i w snap d indices,
  wf w ->
  depth_ (pendingCallbacks_ (callbacks w)) = S d ->
  cache_ (pendingCallbacks_ (callbacks w)) !! d = Some indices ->
  arrays w !! indices = Some snap ->
  i + n = length snap ->
  Forall (fun idx => idx < length (subscribers_ (callbacks w))) snap ->
  let expected :=
    omap (fun idx => subscribers_ (callbacks w) !! idx) (drop i snap) in
  safe (firing_post expected w) (for_each_index run indices n i w)
  /\ (Forall Q expected -> for_each_index run indices n i w <> OutOfFuel).
Proof.
  induction n as [|n IH]; intros i w snap d indices Hwf Hd Hc Ha Hn Hv; simpl.
  - rewrite drop_ge by lia. split; [|done]. split_and!; try done.
  - rewrite Ha. simpl.
    assert (i < length snap) as Hi by lia.
    destruct (lookup_lt_is_Some_2 _ _ Hi) as [idx Hidx]. rewrite Hidx.
    assert (idx < length (subscribers_ (callbacks w))) as Hlt.
    { rewrite Forall_forall in Hv. apply Hv. by eapply list_elem_of_lookup_2. }
    destruct (lookup_lt_is_Some_2 _ _ Hlt) as [func Hfunc]. rewrite Hfunc.
    rewrite (drop_S _ _ _ Hidx). simpl. rewrite Hfunc. simpl.
    pose proof (run_spec func w Hwf) as Hr.
    pose proof (run_total func w Hwf) as Hrt.
    destruct (run func w) as [[w1 t1]| |]; simpl in *;
      [|split; [done|intros HQ; apply Forall_cons_1 in HQ as [HQ _];
                by destruct (Hrt HQ)]|done].
    destruct Hr as (Hwf1 & Hext & HL & a & nested & -> & Hreg).
    assert (Forall (fun idx => idx < length (subscribers_ (callbacks w1))) snap) as Hv1.
    { eapply Forall_impl; [exact Hv|]. intros x Hx. simpl in Hx.
      pose proof (prefix_length _ _ (ext_subscribers _ _ Hext)). lia. }
    destruct (IH (S i) w1 snap d indices) as [IHs IHt]; try done.
    { by rewrite (ext_depth _ _ Hext). }
    { eapply prefix_lookup_Some; [done|apply Hext]. }
    { rewrite <- Ha. eapply (ext_live _ _ Hext d); [lia|done]. }
    { lia. }
    assert (omap (fun idx => subscribers_ (callbacks w1) !! idx) (drop (S i) snap)
            = omap (fun idx => subscribers_ (callbacks w) !! idx) (drop (S i) snap))
      as Hsame.
    { apply omap_lookup_prefix; [apply Hext|]. by apply Forall_drop. }
    rewrite Hsame in IHs, IHt.
    destruct (for_each_index run indices n (S i) w1) as [[w2 t2]| |]; simpl in *.
    + split; [|done]. destruct IHs as (Hwf2 & Hext2 & HL2 & Hroots & Hregs).
      split_and!; try done.
      * by eapply extends_trans.
      * congruence.
      * unfold roots in *. simpl. by rewrite Hroots.
      * apply Forall_cons. split.
        -- by eapply registers_extends_r.
        -- eapply Forall_impl; [exact Hregs|]. intros inv.
           by apply registers_extends_l.
    + split; [done|]. intros HQ. apply Forall_cons_1 in HQ as [_ HQ]. by apply IHt.
    + done.
Qed.
End Loop.

Lemma equal_range_valid {K} `{EqDecision K} (k : K) (m : list (K * nat)) (bound : nat) :
  Forall (fun p => p.2 < bound) m ->
  Forall (fun idx => idx < bound) (Multimap.equal_range k m).
Proof.
  intros Hm. rewrite Forall_forall in Hm.
  unfold Multimap.equal_range. apply Forall_forall.
  intros idx Hin. apply list_elem_of_fmap in Hin as (p & -> & Hp).
  apply list_elem_of_filter in Hp as [_ Hp]. by apply Hm.
Qed.

Lemma Exit_top v p d :
  depth_ p = S d -> cache_ p !! d = Some v ->
  Exit v p = Done (mkPending (cache_ p) d).
Proof. destruct p as [cache depth]. simpl. intros -> Hv. by apply Exit_spec. Qed.


Lemma RunHandlers_args_spec nodeRef args w :
  wf w ->
  safe (firing_post (expected_args nodeRef w) w) (RunHandlers_args call nodeRef args w)
  /\ (Forall Q (expected_args nodeRef w) ->
      RunHandlers_args call nodeRef args w <> OutOfFuel).
Proof.
  intros Hwf. unfold RunHandlers_args, expected_args.
  destruct (decide (_ = [])) as [Hempty|Hne].
  { split; [|done]. simpl. split_and!; try done.
    unfold handlers_for. rewrite Hempty. by destruct (luaAvailable w). }
  destruct (luaAvailable w) eqn:Hlua.
  2:{ split; [|done]. simpl. split_and!; try done. }
  set (range := Multimap.equal_range nodeRef _) in *.
  destruct Hwf as [Hidx (Hd & Hnd & Hb)].
  destruct (Enter_spec range _ _ Hd Hnd Hb)
    as (entry & cache' & heap' & HE & Hc & Hh & Hp & Hnd' & Hb' & Hlen & Hlive).
  unfold pendingCallbacks_Enter. rewrite HE. simpl.
  set (w1 := set_arrays heap' _).
  assert (wf w1) as Hwf1.
  { split; [exact Hidx|]. unfold pool_ok. simpl. split_and!; try done.
    apply lookup_lt_Some in Hc. lia. }
  assert (Array_size entry w1 = length range) as ->.
  { unfold Array_size. simpl. by rewrite Hh. }
  assert (Forall (fun idx => idx < length (subscribers_ (callbacks w))) range) as Hv.
  { apply equal_range_valid, Hidx. }
  destruct (for_each_index_spec (fun func => RunHandler_args call func args)
              (fun func w Hw => proj1 (RunHandler_args_spec func args w Hw))
              (fun func w Hw => proj2 (RunHandler_args_spec func args w Hw))
              (length range) 0 w1 range _ entry Hwf1 eq_refl Hc Hh eq_refl Hv)
    as [Hs Ht].
  simpl in Hs, Ht. rewrite drop_0 in Hs, Ht.
  change (omap _ range) with (handlers_for nodeRef (callbacks w)) in Hs, Ht.
  destruct (for_each_index _ entry (length range) 0 w1) as [[w2 t]| |]; simpl in *;
    [|split; [done|exact Ht]|done].
  destruct Hs as (Hwf2 & Hext & HL & Hroots & Hregs).
  unfold pendingCallbacks_Exit.
  rewrite (Exit_top entry _ (depth_ (pendingCallbacks_ (callbacks w)))).
  2:{ by rewrite (ext_depth _ _ Hext). }
  2:{ eapply prefix_lookup_Some; [exact Hc|apply Hext]. }
  simpl. split; [|done]. split_and!; try done.
  - destruct Hwf2 as [Hidx2 (Hd2 & Hnd2 & Hb2)]. split; [exact Hidx2|].
    unfold pool_ok. simpl. split_and!; try done.
    rewrite (ext_depth _ _ Hext) in Hd2. simpl in Hd2. lia.
  - split; simpl; try apply Hext; try done.
    + etrans; [exact Hp|apply Hext].
    + intros i a Hi Ha. etrans.
      * eapply (ext_live _ _ Hext i); simpl; [lia|].
        eapply prefix_lookup_Some; [exact Ha|exact Hp].
      * simpl. by eapply Hlive.
    + etrans; [exact Hlen|apply Hext].
Qed.

Lemma RunHandlers_tuple_args nodeRef tuple w :
  RunHandlers_tuple call nodeRef tuple w
  = if merging_ (callbacks w) then Done (w, [])
    else RunHandlers_args call nodeRef (default [] tuple) w.
Proof.
  unfold RunHandlers_tuple, RunHandlers_args.
  destruct (merging_ (callbacks w)); [done|].
  destruct (decide _); [done|]. destruct (luaAvailable w); [|done].
  destruct (pendingCallbacks_Enter _ w) as [[indices w1]| |]; simpl; [|done..].
  rewrite (for_each_index_ext _ (fun func => RunHandler_args call func (default [] tuple))).
  - done.
  - intros. apply RunHandler_tuple_args.
Qed.


Lemma RunHandlers_tuple_spec nodeRef tuple w :
  wf w ->
  safe (firing_post (expected_tuple nodeRef w) w) (RunHandlers_tuple call nodeRef tuple w)
  /\ (Forall Q (expected_tuple nodeRef w) ->
      RunHandlers_tuple call nodeRef tuple w <> OutOfFuel).
Proof.
  intros Hwf. rewrite RunHandlers_tuple_args. unfold expected_tuple.
  destruct (merging_ (callbacks w)).
  - split; [|done]. simpl. split_and!; try done.
  - by apply RunHandlers_args_spec.
Qed.

Lemma safe_weaken {A} (P P' : A -> Prop) o :
  (forall a, P a -> P' a) -> safe P o -> safe P' o.
Proof. intros HP. destruct o; simpl; auto. Qed.

Lemma firing_dispatch_post expected w a :
  firing_post expected w a -> dispatch_post w a.
Proof. destruct a as [w' t]. simpl. tauto. Qed.

Lemma dispatch_spec h w : wf w -> safe (dispatch_post w) (dispatch call h w).
Proof.
  intros Hwf.
  destruct h; simpl;
    unfold InsertPreHook, InsertPostHook, CallQueryPreHook, CallQueryPostHook,
      CallPreHook, CallPostHook, EventPreHook, EventPostHook;
    eapply safe_weaken;
    first [ apply firing_dispatch_post
          | by apply RunHandlers_tuple_spec
          | by apply RunHandlers_args_spec ].
Qed.

Lemma Subscribe_fields n a t handler w :
  let w' := Subscribe n a t handler w in
  let index := length (subscribers_ (callbacks w)) in
  subscribers_ (callbacks w') = subscribers_ (callbacks w) ++ [handler]
  /\ nameSubscriberRefs_ (callbacks w')
     = nameSubscriberRefs_ (callbacks w) ++ [(mkSig n a t, index)]
  /\ nodeSubscriberRefs_ (callbacks w')
     = nodeSubscriberRefs_ (callbacks w)
       ++ (if storyLoaded_ (callbacks w)
           then match resolve (story w) (mkSig n a t) with
                | Some nodeRef => [(nodeRef, index)]
                | None => []
                end
           else [])
  /\ pendingCallbacks_ (callbacks w') = pendingCallbacks_ (callbacks w)
  /\ storyLoaded_ (callbacks w') = storyLoaded_ (callbacks w)
  /\ merging_ (callbacks w') = merging_ (callbacks w)
  /\ arrays w' = arrays w /\ story w' = story w
  /\ luaAvailable w' = luaAvailable w /\ L w' = L w.
Proof.
  unfold Subscribe. simpl.
  destruct (storyLoaded_ (callbacks w)) eqn:Hl; simpl.
  - match goal with |- context [RegisterNodeHandler ?s ?i (HookOsiris ?x)] =>
      pose proof (RegisterNodeHandler_frame s i (HookOsiris x)) as Hf;
      pose proof (RegisterNodeHandler_nodes s i (HookOsiris x)) as Hn;
      pose proof (HookOsiris_frame x) as Hh
    end.
    simpl in Hf, Hh.
    destruct Hf as (-> & -> & -> & -> & _ & -> & -> & -> & _ & -> & ->).
    destruct Hh as (-> & -> & Hnodes & -> & -> & -> & -> & Hst & -> & -> & _).
    rewrite Hn, Hst, Hnodes. simpl. rewrite Hl.
    split_and!; try done.
    destruct (resolve (story w) _) eqn:Hres; rewrite ?app_nil_r; reflexivity.
  - rewrite app_nil_r. split_and!; done.
Qed.

Lemma Subscribe_spec n a t handler w :
  wf w -> dispatch_post w (Subscribe n a t handler w, []).
Proof.
  intros [[Hnames Hnodes] Hpool].
  destruct (Subscribe_fields n a t handler w)
    as (Hs & Hn & Hnd & Hp & Hsl & Hm & Ha & Hst & Hlua & HL).
  simpl. split_and!; [split; [split|]| |done].
  - rewrite Hs, Hn, length_app. simpl. apply Forall_app. split.
    + eapply Forall_impl; [exact Hnames|]. simpl. lia.
    + apply Forall_singleton. simpl. lia.
  - rewrite Hs, Hnd, length_app. simpl. apply Forall_app. split.
    + eapply Forall_impl; [exact Hnodes|]. simpl. lia.
    + destruct (storyLoaded_ (callbacks w)); [|done].
      destruct (resolve _ _); [|done]. apply Forall_singleton. simpl. lia.
  - unfold pool_ok. by rewrite Hp, Ha.
  - split; rewrite ?Hs, ?Hn, ?Hnd, ?Hp, ?Ha, ?Hsl, ?Hm, ?Hst, ?Hlua;
      try done; by apply prefix_app_r.
Qed.

Lemma perform_spec a w : wf w -> safe (dispatch_post w) (perform call a w).
Proof.
  intros Hwf. destruct a as [n ar t handler|h]; simpl.
  - by apply Subscribe_spec.
  - by apply dispatch_spec.
Qed.

Lemma run_script_spec acts : forall w,
  wf w -> safe (dispatch_post w) (run_script call acts w).
Proof.
  induction acts as [|a acts IH]; intros w Hwf; simpl.
  - split_and!; try done.
  - pose proof (perform_spec a w Hwf) as Hp.
    destruct (perform call a w) as [[w1 t1]| |]; simpl in *; [|done..].
    destruct Hp as (Hwf1 & Hext1 & HL1).
    specialize (IH w1 Hwf1).
    destruct (run_script call acts w1) as [[w2 t2]| |]; simpl in *; [|done..].
    destruct IH as (Hwf2 & Hext2 & HL2). split_and!; try done.
    + by eapply extends_trans.
    + congruence.
Qed.

Lemma run_script_registers acts : forall w w' t,
  wf w ->
  run_script call acts w = Done (w', t) ->
  forall n ar ty hnew nodeRef,
    DoSubscribe n ar ty hnew ∈ acts ->
    storyLoaded_ (callbacks w) = true ->
    resolve (story w) (mkSig n ar ty) = Some nodeRef ->
    exists idx,
      length (subscribers_ (callbacks w)) <= idx
      /\ (nodeRef, idx) ∈ nodeSubscriberRefs_ (callbacks w')
      /\ subscribers_ (callbacks w') !! idx = Some hnew.
Proof.
  induction acts as [|a acts IH]; intros w w' t Hwf Hrun n ar ty hnew nodeRef Hin Hl Hres.
  { by apply elem_of_nil in Hin. }
  simpl in Hrun.
  pose proof (perform_spec a w Hwf) as Hp.
  destruct (perform call a w) as [[w1 t1]| |] eqn:Hperf; simpl in *; [|done..].
  destruct Hp as (Hwf1 & Hext1 & HL1).
  pose proof (run_script_spec acts w1 Hwf1) as Hr.
  destruct (run_script call acts w1) as [[w2 t2]| |] eqn:Hrest; simpl in *; [|done..].
  destruct Hr as (Hwf2 & Hext2 & HL2). simplify_eq.
  apply elem_of_cons in Hin as [<-|Hin].
  - simpl in Hperf. simplify_eq.
    destruct (Subscribe_fields n ar ty hnew w)
      as (Hs & _ & Hnd & _).
    simpl in Hs, Hnd. rewrite Hl, Hres in Hnd.
    exists (length (subscribers_ (callbacks w))). split_and!; [done| |].
    + destruct (ext_nodes _ _ Hext2) as [k ->]. rewrite Hnd.
      rewrite !elem_of_app, list_elem_of_singleton. auto.
    + eapply prefix_lookup_Some; [|apply Hext2]. rewrite Hs.
      by apply list_lookup_middle.
  - rewrite <- (ext_storyLoaded _ _ Hext1) in Hl.
    rewrite <- (ext_story _ _ Hext1) in Hres.
    destruct (IH w1 w' t2 Hwf1 Hrest n ar ty hnew nodeRef Hin Hl Hres)
      as (idx & Hidx & Hnode & Hsub).
    exists idx. split_and!; [|done..].
    pose proof (prefix_length _ _ (ext_subscribers _ _ Hext1)). lia.
Qed.

End DispatchProofs.

Section Fuel.
Context `{PhaseBits} `{LuaCode}.

Lemma CallWithTraceback_spec fuel : forall n w,
  wf w -> safe (call_post n w) (CallWithTraceback fuel n w).
Proof.
  induction fuel as [|fuel IH]; intros n w Hwf; simpl; [done|].
  assert ((forall h, L w !! n <> Some (LFunction h)) ->
          call_post n w
            (Status 2,
             set_L (LError "attempt to call a non-function" :: drop (S n) (L w)) w,
             [])) as Hbad.
  { intros Hno. simpl. split_and!.
    - exact Hwf.
    - eapply same_core_extends_r; [|apply extends_refl]. done.
    - simpl. eauto.
    - intros h Hh. by destruct (Hno h). }
  destruct (L w !! n) as [[h| | |]|] eqn:Hn; try (apply Hbad; by intros ?).
  cbv zeta. set (args := omap _ (reverse (take n (L w)))).
  pose proof (run_script_spec (CallWithTraceback fuel) (fun _ => False) IH
                (fun _ _ _ _ _ HF => False_ind _ HF)
                (body (program h args)) w Hwf) as Hr.
  pose proof (run_script_registers (CallWithTraceback fuel) (fun _ => False) IH
                (fun _ _ _ _ _ HF => False_ind _ HF)
                (body (program h args)) w) as Hsubs.
  destruct (run_script _ _ w) as [[w1 nested]| |]; simpl in *; [|done..].
  destruct Hr as (Hwf1 & Hext & HL).
  specialize (Hsubs w1 nested Hwf eq_refl).
  rewrite HL.
  assert (forall st stack,
            stack_law n st (L w) stack ->
            call_post n w (st, set_L stack w1, [Invoked h args nested])) as Hpost.
  { intros st stack Hstack. simpl. split_and!.
    - exact Hwf1.
    - eapply same_core_extends_r; [|exact Hext]. done.
    - exact Hstack.
    - rewrite Hn. intros h' [= <-]. eexists _, _. split; [done|].
      exact Hsubs. }
  destruct (result _);
    [apply (Hpost (Status 0))|apply (Hpost (Status 2))|apply (Hpost Exception)];
    simpl; eauto.
Qed.

End Fuel.

Section StackProofs.
Context `{PhaseBits} `{LuaCode}.


Variable call : nat -> World -> Outcome (CallStatus * World * list Invocation).
Hypothesis call_stack : forall n w,
  partial (fun '(st, w', _) => stack_law n st (L w) (L w')) (call n w).

Lemma RunHandler_args_stack func args w :
  partial (stack_kept w) (RunHandler_args call func args w).
Proof.
  unfold RunHandler_args, lua_checkstack. rewrite push_args. simpl.
  match goal with |- context [call ?n ?w0] =>
    pose proof (call_stack n w0) as Hc; destruct (call n w0) as [[[st w1] t]| |]
  end; simpl in *; [|done..].
  unfold stack_law in Hc. rewrite pushed_base in Hc.
  destruct st as [code|].
  - destruct (decide (code <> 0)%Z); simpl; [|done].
    destruct Hc as [e ->]. done.
  - destruct Hc as [residue Hres]. unfold lua_gettop. simpl.
    rewrite Hres, length_app.
    destruct (decide _) as [Hpos|Hzero]; simpl; rewrite Hres.
    + replace (Z.to_nat _) with (length residue) by lia.
      by rewrite drop_app_length.
    + destruct residue; [done|simpl in *; lia].
Qed.

Lemma for_each_index_stack run indices n : forall i w,
  (forall func w, partial (stack_kept w) (run func w)) ->
  partial (stack_kept w) (for_each_index run indices n i w).
Proof.
  induction n as [|n IH]; intros i w Hrun; simpl; [done|].
  destruct (arrays w !! indices ≫= _) as [index|]; [|done].
  destruct (subscribers_ (callbacks w) !! index) as [func|]; [|done].
  pose proof (Hrun func w) as Hr.
  destruct (run func w) as [[w1 t1]| |]; simpl in *; [|done..].
  specialize (IH (S i) w1 Hrun).
  destruct (for_each_index run indices n (S i) w1) as [[w2 t2]| |]; simpl in *; [|done..].
  congruence.
Qed.

Lemma RunHandlers_args_stack nodeRef args w :
  partial (stack_kept w) (RunHandlers_args call nodeRef args w).
Proof.
  unfold RunHandlers_args. destruct (decide _); [done|].
  destruct (luaAvailable w); [|done].
  unfold pendingCallbacks_Enter.
  destruct (Enter _ _ _) as [[[entry p] heap]| |]; simpl; [|done..].
  match goal with |- context [for_each_index ?run ?e ?n 0 ?w1] =>
    pose proof (for_each_index_stack run e n 0 w1
                  (fun func w => RunHandler_args_stack func args w)) as Hloop;
    destruct (for_each_index run e n 0 w1) as [[w2 t]| |]
  end; simpl in *; [|done..].
  unfold pendingCallbacks_Exit. destruct (Exit _ _); simpl; done.
Qed.

Lemma RunHandlers_tuple_stack nodeRef tuple w :
  partial (stack_kept w) (RunHandlers_tuple call nodeRef tuple w).
Proof.
  rewrite RunHandlers_tuple_args. destruct (merging_ (callbacks w)); [done|].
  apply RunHandlers_args_stack.
Qed.

Lemma dispatch_stack h w : partial (stack_kept w) (dispatch call h w).
Proof.
  destruct h; simpl;
    first [apply RunHandlers_tuple_stack | apply RunHandlers_args_stack].
Qed.

Lemma run_script_stack acts : forall w,
  partial (stack_kept w) (run_script call acts w).
Proof.
  induction acts as [|a acts IH]; intros w; simpl; [done|].
  assert (partial (stack_kept w) (perform call a w)) as Hp.
  { destruct a as [n ar t handler|h]; simpl.
    - by destruct (Subscribe_fields n ar t handler w) as (_&_&_&_&_&_&_&_&_&?).
    - apply dispatch_stack. }
  destruct (perform call a w) as [[w1 t1]| |]; simpl in *; [|done..].
  specialize (IH w1).
  destruct (run_script call acts w1) as [[w2 t2]| |]; simpl in *; [|done..].
  congruence.
Qed.
End StackProofs.

Section StackFuel.
Context `{PhaseBits} `{LuaCode}.

Lemma CallWithTraceback_stack fuel : forall n w,
  partial (fun '(st, w', _) => stack_law n st (L w) (L w'))
    (CallWithTraceback fuel n w).
Proof.
  induction fuel as [|fuel IH]; intros n w; simpl; [done|].
  destruct (L w !! n) as [[h| | |]|] eqn:Hn; simpl; eauto.
  cbv zeta. set (args := omap _ (reverse (take n (L w)))).
  pose proof (run_script_stack (CallWithTraceback fuel) IH
                (body (program h args)) w) as Hr.
  destruct (run_script _ _ w) as [[w1 nested]| |]; simpl in *; [|done..].
  rewrite Hr. destruct (result _); simpl; eauto.
Qed.

Lemma run_script_quiet_done call acts w :
  forallb is_subscribe acts = true ->
  exists w', run_script call acts w = Done (w', []).
Proof.
  revert w. induction acts as [|a acts IH]; intros w Hq; simpl; [eauto|].
  simpl in Hq. apply andb_prop in Hq as [Ha Hq].
  destruct a as [n ar t handler|h]; [|done]. simpl.
  destruct (IH (Subscribe n ar t handler w) Hq) as [w' ->]. simpl. eauto.
Qed.

Lemma RunHandler_args_quiet fuel func args w :
  quiet func ->
  exists w' t, RunHandler_args (CallWithTraceback (S fuel)) func args w = Done (w', t).
Proof.
  intros Hq. unfold RunHandler_args, lua_checkstack. rewrite push_args.
  cbn [CallWithTraceback]. cbn [L set_L Push]. rewrite Nat.add_0_l, pushed_function.
  cbv zeta.
  match goal with |- context [program func ?a] => set (a' := a) end.
  destruct (run_script_quiet_done (CallWithTraceback fuel) (body (program func a'))
              (set_L (reverse (LArg <$> args) ++ LFunction func :: L w) (Push func w)) (Hq a'))
    as [w1 Hw1].
  simpl in Hw1 |- *. rewrite Hw1. simpl.
  destruct (result _); simpl; repeat case_decide; eauto.
Qed.
End StackFuel.

Section Reachability.
Context `{PhaseBits} `{LuaCode}.

Lemma RegisterNodeHandler_all order : forall w,
  let w' := foldl (fun w it => RegisterNodeHandler it.1 it.2 w) w order in
  subscribers_ (callbacks w') = subscribers_ (callbacks w)
  /\ nameSubscriberRefs_ (callbacks w') = nameSubscriberRefs_ (callbacks w)
  /\ pendingCallbacks_ (callbacks w') = pendingCallbacks_ (callbacks w)
  /\ storyLoaded_ (callbacks w') = storyLoaded_ (callbacks w)
  /\ merging_ (callbacks w') = merging_ (callbacks w)
  /\ arrays w' = arrays w /\ story w' = story w
  /\ luaAvailable w' = luaAvailable w /\ L w' = L w
  /\ nodeSubscriberRefs_ (callbacks w')
     = nodeSubscriberRefs_ (callbacks w)
       ++ omap (fun it : OsirisHookSignature * nat =>
                  (fun nodeRef => (nodeRef, it.2)) <$> resolve (story w) it.1) order.
Proof.
  induction order as [|it order IH]; intros w; simpl.
  - rewrite app_nil_r. split_and!; done.
  - specialize (IH (RegisterNodeHandler it.1 it.2 w)). simpl in IH.
    destruct IH as (-> & -> & -> & -> & -> & -> & Hst & -> & -> & ->).
    pose proof (RegisterNodeHandler_frame it.1 it.2 w) as Hf. simpl in Hf.
    destruct Hf as (-> & -> & -> & -> & _ & -> & -> & Hst' & _ & -> & ->).
    rewrite Hst, Hst', RegisterNodeHandler_nodes.
    split_and!; try done.
    destruct (resolve (story w) it.1); simpl; [|done].
    by rewrite <- app_assoc.
Qed.

Lemma StoryLoaded_fields order w :
  let w' := StoryLoaded order w in
  subscribers_ (callbacks w') = subscribers_ (callbacks w)
  /\ nameSubscriberRefs_ (callbacks w') = nameSubscriberRefs_ (callbacks w)
  /\ pendingCallbacks_ (callbacks w') = pendingCallbacks_ (callbacks w)
  /\ storyLoaded_ (callbacks w') = true
  /\ merging_ (callbacks w') = merging_ (callbacks w)
  /\ arrays w' = arrays w /\ story w' = story w
  /\ luaAvailable w' = luaAvailable w /\ L w' = L w
  /\ nodeSubscriberRefs_ (callbacks w')
     = omap (fun it : OsirisHookSignature * nat =>
               (fun nodeRef => (nodeRef, it.2)) <$> resolve (story w) it.1) order.
Proof.
  unfold StoryLoaded.
  match goal with |- context [foldl ?f ?w0 order] =>
    pose proof (RegisterNodeHandler_all order w0) as Ha
  end.
  pose proof (HookOsiris_frame w) as Hh. simpl in Ha, Hh |- *.
  destruct Ha as (-> & -> & -> & -> & -> & -> & -> & -> & -> & ->).
  destruct Hh as (-> & -> & _ & -> & _ & -> & -> & -> & -> & -> & _).
  split_and!; done.
Qed.

Lemma StoryLoaded_wf order w :
  order ≡ₚ nameSubscriberRefs_ (callbacks w) -> wf w -> wf (StoryLoaded order w).
Proof.
  intros Hperm [[Hnames Hnodes] Hpool].
  destruct (StoryLoaded_fields order w)
    as (Hs & Hn & Hp & _ & _ & Ha & _ & _ & _ & Hnd).
  split; [split|].
  - by rewrite Hs, Hn.
  - rewrite Hs, Hnd. apply Forall_forall. intros [r id] Hin.
    apply list_elem_of_omap in Hin as ([sig id'] & Hin & Hres). simpl in Hres.
    destruct (resolve (story w) sig); simpl in Hres; simplify_eq. simpl.
    rewrite <- Hperm in Hnames. rewrite Forall_forall in Hnames.
    exact (Hnames _ Hin).
  - unfold pool_ok. by rewrite Hp, Ha.
Qed.

Lemma HookOsiris_wf w : wf w -> wf (HookOsiris w).
Proof.
  intros Hwf. pose proof (HookOsiris_frame w) as Hh. simpl in Hh.
  destruct Hh as (Hs & Hn & Hnd & Hp & _ & _ & Ha & _).
  unfold wf, indices_valid, pool_ok in *. by rewrite Hs, Hn, Hnd, Hp, Ha.
Qed.

Lemma fire_spec fuel h w : wf w -> safe (dispatch_post w) (fire fuel h w).
Proof.
  intros Hwf. unfold fire.
  apply (dispatch_spec (CallWithTraceback fuel) (fun _ => False)
           (CallWithTraceback_spec fuel) (fun _ _ _ _ _ HF => False_ind _ HF) h w Hwf).
Qed.

Lemma step_wf w w' : step w w' -> wf w -> wf w'.
Proof.
  intros Hstep Hwf. destruct Hstep as [n a t handler w| order st w [Hperm _]| b w| w
    | available stack w| fuel h w w' t Hfire].
  - by destruct (Subscribe_spec n a t handler w Hwf) as (? & _).
  - apply StoryLoaded_wf; [exact Hperm|exact Hwf].
  - exact Hwf.
  - by apply HookOsiris_wf.
  - exact Hwf.
  - pose proof (fire_spec fuel h w Hwf) as Hs. rewrite Hfire in Hs. apply Hs.
Qed.

Lemma reachable_wf w : reachable w -> wf w.
Proof.
  induction 1 as [w Hinit|w w' _ IH Hstep].
  - unfold initial in Hinit. unfold wf, indices_valid, pool_ok. rewrite Hinit. simpl.
    split_and!; constructor.
  - by eapply step_wf.
Qed.

Lemma step_keeps_handlers w w' :
  step w w' -> wf w ->
  subscribers_ (callbacks w) `prefix_of` subscribers_ (callbacks w').
Proof.
  intros Hstep Hwf. destruct Hstep as [n a t handler w| order st w [Hperm _]| b w| w
    | available stack w| fuel h w w' t Hfire].
  - destruct (Subscribe_fields n a t handler w) as (-> & _). by apply prefix_app_r.
  - by destruct (StoryLoaded_fields order (set_story st w)) as (-> & _).
  - done.
  - pose proof (HookOsiris_frame w) as Hh. simpl in Hh. by destruct Hh as (-> & _).
  - done.
  - pose proof (fire_spec fuel h w Hwf) as Hs. rewrite Hfire in Hs.
    destruct Hs as (_ & Hext & _). apply Hext.
Qed.

(** C10.  In every state the manager can reach, every index stored in the
    name map or in the node map is below the length of the handler list,
    which only grows; so no firing, through either overload and with
    handlers nesting to any depth, ever indexes the handler list or a
    pooled snapshot out of bounds, nor trips the [Exit] assertion. *)
Theorem handler_indices_in_bounds w :
  reachable w ->
  indices_valid (callbacks w)
  /\ (forall w', step w w' ->
        subscribers_ (callbacks w) `prefix_of` subscribers_ (callbacks w'))
  /\ (forall fuel nodeRef args f,
        RunHandlers_args (CallWithTraceback fuel) nodeRef args w <> Crash f)
  /\ (forall fuel nodeRef tuple f,
        RunHandlers_tuple (CallWithTraceback fuel) nodeRef tuple w <> Crash f).
Proof.
  intros Hr. pose proof (reachable_wf w Hr) as Hwf. split_and!.
  - apply Hwf.
  - intros w' Hstep. by apply step_keeps_handlers.
  - intros fuel nodeRef args f Hcrash.
    destruct (RunHandlers_args_spec (CallWithTraceback fuel) (fun _ => False)
                (CallWithTraceback_spec fuel) (fun _ _ _ _ _ HF => False_ind _ HF)
                nodeRef args w Hwf) as [Hs _].
    by rewrite Hcrash in Hs.
  - intros fuel nodeRef tuple f Hcrash.
    destruct (RunHandlers_tuple_spec (CallWithTraceback fuel) (fun _ => False)
                (CallWithTraceback_spec fuel) (fun _ _ _ _ _ HF => False_ind _ HF)
                nodeRef tuple w Hwf) as [Hs _].
    by rewrite Hcrash in Hs.
Qed.
End Reachability.

Section Firing.
Context `{PhaseBits} `{LuaCode}.

Lemma equal_range_app {K} `{EqDecision K} (k : K) (m1 m2 : list (K * nat)) :
  Multimap.equal_range k (m1 ++ m2)
  = Multimap.equal_range k m1 ++ Multimap.equal_range k m2.
Proof. unfold Multimap.equal_range. by rewrite filter_app, fmap_app. Qed.




Lemma RunHandlers_args_fired fuel nodeRef args w w' t :
  wf w ->
  RunHandlers_args (CallWithTraceback fuel) nodeRef args w = Done (w', t) ->
  firing_post (expected_args nodeRef w) w (w', t).
Proof.
  intros Hwf Hrun.
  destruct (RunHandlers_args_spec (CallWithTraceback fuel) (fun _ => False)
              (CallWithTraceback_spec fuel) (fun _ _ _ _ _ HF => False_ind _ HF)
              nodeRef args w Hwf) as [Hs _].
  by rewrite Hrun in Hs.
Qed.




(** C4.  Whenever [RunHandler] returns, in either overload, the Lua
    stack is what it was before the call, and so is its depth: after a
    normal return, after a script error (the error value is popped) and
    after a native exception (everything above the depth recorded before
    the call is popped).  With a handler that does not re-enter the engine
    it does return. *)
Theorem RunHandler_restores_stack fuel func args tuple w :
  (forall w' t,
     RunHandler_args (CallWithTraceback fuel) func args w = Done (w', t) ->
     lua_gettop w' = lua_gettop w /\ L w' = L w)
  /\ (forall w' t,
        RunHandler_tuple (CallWithTraceback fuel) func tuple w = Done (w', t) ->
        lua_gettop w' = lua_gettop w /\ L w' = L w)
  /\ (quiet func ->
      (exists w' t,
         RunHandler_args (CallWithTraceback (S fuel)) func args w = Done (w', t))
      /\ (exists w' t,
            RunHandler_tuple (CallWithTraceback (S fuel)) func tuple w = Done (w', t))).
Proof.
  assert (forall a w' t,
            RunHandler_args (CallWithTraceback fuel) func a w = Done (w', t) ->
            lua_gettop w' = lua_gettop w /\ L w' = L w) as Hargs.
  { intros a w' t Hrun.
    pose proof (RunHandler_args_stack (CallWithTraceback fuel)
                  (CallWithTraceback_stack fuel) func a w) as Hs.
    rewrite Hrun in Hs. simpl in Hs. unfold lua_gettop. by rewrite Hs. }
  split_and!.
  - apply Hargs.
  - intros w' t. rewrite RunHandler_tuple_args. apply Hargs.
  - intros Hq. split.
    + by apply RunHandler_args_quiet.
    + rewrite RunHandler_tuple_args. by apply RunHandler_args_quiet.
Qed.

(** The gate of the tuple overload. *)
Lemma RunHandlers_tuple_merging call nodeRef tuple w :
  merging_ (callbacks w) = true ->
  RunHandlers_tuple call nodeRef tuple w = Done (w, []).
Proof. intros Hm. unfold RunHandlers_tuple. by rewrite Hm. Qed.
End Firing.

Section Reload.
Context `{PhaseBits} `{LuaCode}.

Lemma equal_range_resolved (st : Story) sig nodeRef
    (order : list (OsirisHookSignature * nat)) :
  resolve st sig = Some nodeRef ->
  (forall sig' index,
     (sig', index) ∈ order -> resolve st sig' = Some nodeRef -> sig' = sig) ->
  Multimap.equal_range nodeRef
    (omap (fun it : OsirisHookSignature * nat =>
             (fun nodeRef => (nodeRef, it.2)) <$> resolve st it.1) order)
  = Multimap.equal_range sig order.
Proof.
  intros Hres Huniq. unfold Multimap.equal_range.
  set (f := fun it : OsirisHookSignature * nat =>
              (fun nodeRef => (nodeRef, it.2)) <$> resolve st it.1).
  induction order as [|[sig' index] order IH]; [done|].
  assert (forall s i, (s, i) ∈ order -> resolve st s = Some nodeRef -> s = sig) as Hrest.
  { intros s i Hin. apply (Huniq s i). by right. }
  specialize (IH Hrest).
  change (omap f ((sig', index) :: order))
    with (match f (sig', index) with
          | Some y => y :: omap f order
          | None => omap f order
          end).
  unfold f at 1. simpl.
  destruct (resolve st sig') as [r|] eqn:Hr; simpl.
  - destruct (decide (r = nodeRef)) as [->|Hne].
    + assert (sig' = sig) as -> by (apply (Huniq sig' index); [by left|done]).
      rewrite !filter_cons_True by done. rewrite !fmap_cons. f_equal. exact IH.
    + rewrite filter_cons_False by done.
      rewrite filter_cons_False; [exact IH|].
      simpl. intros ->. congruence.
  - rewrite filter_cons_False; [exact IH|]. simpl. intros ->. congruence.
Qed.

(** Handlers subscribed to one signature keep their subscription order
    when the node map is rebuilt on a story load, whatever order the name
    map is walked in, provided no other subscribed signature resolves to
    the same node reference. *)
Lemma StoryLoaded_keeps_signature_order order w sig nodeRef :
  Multimap.valid_traversal (nameSubscriberRefs_ (callbacks w)) order ->
  resolve (story w) sig = Some nodeRef ->
  (forall sig' index,
     (sig', index) ∈ nameSubscriberRefs_ (callbacks w) ->
     resolve (story w) sig' = Some nodeRef -> sig' = sig) ->
  handlers_for nodeRef (callbacks (StoryLoaded order w))
  = omap (fun index => subscribers_ (callbacks w) !! index)
      (Multimap.equal_range sig (nameSubscriberRefs_ (callbacks w))).
Proof.
  intros [Hperm Hsame] Hres Huniq. unfold handlers_for.
  destruct (StoryLoaded_fields order w) as (-> & _ & _ & _ & _ & _ & _ & _ & _ & ->).
  rewrite (equal_range_resolved (story w) sig nodeRef order Hres).
  - by rewrite Hsame.
  - intros sig' index Hin. apply (Huniq sig' index). by rewrite <- Hperm.
Qed.

Lemma three_subscriptions n a t H1 H2 H3 w :
  wf w ->
  let w3 := Subscribe n a t H3 (Subscribe n a t H2 (Subscribe n a t H1 w)) in
  wf w3 /\ extends w w3
  /\ subscribers_ (callbacks w3) = subscribers_ (callbacks w) ++ [H1; H2; H3]
  /\ nameSubscriberRefs_ (callbacks w3)
     = nameSubscriberRefs_ (callbacks w)
       ++ [(mkSig n a t, length (subscribers_ (callbacks w)));
           (mkSig n a t, length (subscribers_ (callbacks w)) + 1);
           (mkSig n a t, length (subscribers_ (callbacks w)) + 2)].
Proof.
  intros Hwf. cbv zeta.
  pose proof (Subscribe_spec n a t H1 w Hwf) as Hp1.
  pose proof (Subscribe_fields n a t H1 w) as Hf1. cbv zeta in Hf1.
  revert Hp1 Hf1. generalize (Subscribe n a t H1 w). intros w1 Hp1 Hf1.
  destruct Hp1 as (Hwf1 & Hext1 & _). destruct Hf1 as (Hs1 & Hn1 & _).
  pose proof (Subscribe_spec n a t H2 w1 Hwf1) as Hp2.
  pose proof (Subscribe_fields n a t H2 w1) as Hf2. cbv zeta in Hf2.
  revert Hp2 Hf2. generalize (Subscribe n a t H2 w1). intros w2 Hp2 Hf2.
  destruct Hp2 as (Hwf2 & Hext2 & _). destruct Hf2 as (Hs2 & Hn2 & _).
  pose proof (Subscribe_spec n a t H3 w2 Hwf2) as Hp3.
  pose proof (Subscribe_fields n a t H3 w2) as Hf3. cbv zeta in Hf3.
  revert Hp3 Hf3. generalize (Subscribe n a t H3 w2). intros w3 Hp3 Hf3.
  destruct Hp3 as (Hwf3 & Hext3 & _). destruct Hf3 as (Hs3 & Hn3 & _).
  split_and!.
  - exact Hwf3.
  - eapply extends_trans; [exact Hext1|]. eapply extends_trans; [exact Hext2|exact Hext3].
  - rewrite Hs3, Hs2, Hs1, <- !app_assoc. reflexivity.
  - rewrite Hn3, Hn2, Hn1, Hs2, Hs1, !length_app, <- !app_assoc.
    cbn [length app]. rewrite <- Nat.add_assoc. reflexivity.
Qed.

Lemma StoryLoaded_dispatch_order fuel w n a t H1 H2 H3 st order nodeRef args w' t' :
  wf w ->
  luaAvailable w = true ->
  let sig := mkSig n a t in
  let w3 := Subscribe n a t H3 (Subscribe n a t H2 (Subscribe n a t H1 w)) in
  Multimap.valid_traversal (nameSubscriberRefs_ (callbacks w3)) order ->
  resolve st sig = Some nodeRef ->
  (forall sig' index,
     (sig', index) ∈ nameSubscriberRefs_ (callbacks w3) ->
     resolve st sig' = Some nodeRef -> sig' = sig) ->
  RunHandlers_args (CallWithTraceback fuel) nodeRef args
    (StoryLoaded order (set_story st w3)) = Done (w', t') ->
  roots t'
  = omap (fun index => subscribers_ (callbacks w) !! index)
      (Multimap.equal_range sig (nameSubscriberRefs_ (callbacks w)))
    ++ [H1; H2; H3].
Proof.
  intros Hwf Hlua. cbv zeta.
  pose proof (three_subscriptions n a t H1 H2 H3 w Hwf) as Hthree. cbv zeta in Hthree.
  revert Hthree.
  generalize (Subscribe n a t H3 (Subscribe n a t H2 (Subscribe n a t H1 w))).
  intros w3 (Hwf3 & Hext & Hs & Hn) Hvalid Hres Huniq Hrun.
  assert (wf (set_story st w3)) as Hwfs by exact Hwf3.
  assert (wf (StoryLoaded order (set_story st w3))) as Hwfl.
  { apply StoryLoaded_wf; [apply Hvalid|exact Hwfs]. }
  destruct (RunHandlers_args_fired fuel nodeRef args _ w' t' Hwfl Hrun)
    as (_ & _ & _ & Hroots & _).
  rewrite Hroots. unfold expected_args.
  destruct (StoryLoaded_fields order (set_story st w3))
    as (_ & _ & _ & _ & _ & _ & _ & -> & _).
  change (luaAvailable (set_story st w3)) with (luaAvailable w3).
  rewrite (ext_lua _ _ Hext), Hlua.
  rewrite (StoryLoaded_keeps_signature_order order (set_story st w3)
             (mkSig n a t) nodeRef Hvalid Hres Huniq).
  change (callbacks (set_story st w3)) with (callbacks w3).
  rewrite Hn, Hs, equal_range_app, omap_app.
  rewrite (omap_lookup_prefix (subscribers_ (callbacks w))).
  2:{ by apply prefix_app_r. }
  2:{ apply equal_range_valid, Hwf. }
  f_equal.
  unfold Multimap.equal_range. rewrite !filter_cons_True by done.
  rewrite filter_nil. cbn [fmap list_fmap snd omap list_omap].
  rewrite !lookup_app_r by lia.
  replace (length (subscribers_ (callbacks w)) - length (subscribers_ (callbacks w)))
    with 0 by lia.
  replace (length (subscribers_ (callbacks w)) + 1 - length (subscribers_ (callbacks w)))
    with 1 by lia.
  replace (length (subscribers_ (callbacks w)) + 2 - length (subscribers_ (callbacks w)))
    with 2 by lia.
  reflexivity.
Qed.
End Reload.

(** ** Hash helpers *)

Section Hashing.
Local Open Scope Z_scope.

Lemma to_uint64_range z : is_uint64 (to_uint64 z).
Proof. unfold is_uint64, to_uint64. apply Z.mod_pos_bound. lia. Qed.

Lemma to_uint64_small z : is_uint64 z -> to_uint64 z = z.
Proof. intros Hz. unfold to_uint64. apply Z.mod_small. exact Hz. Qed.

Lemma uint64_bits_high z k : is_uint64 z -> 64 <= k -> Z.testbit z k = false.
Proof.
  intros Hz Hk. rewrite <- (to_uint64_small z Hz). unfold to_uint64.
  apply Z.mod_pow2_bits_high. lia.
Qed.

Lemma bits_uint64 z :
  0 <= z -> (forall k, 64 <= k -> Z.testbit z k = false) -> is_uint64 z.
Proof.
  intros Hz Hbits.
  assert (to_uint64 z = z) as <-; [|apply to_uint64_range].
  unfold to_uint64. apply Z.bits_inj'. intros k Hk.
  destruct (Z_lt_le_dec k 64) as [Hlt|Hge].
  - apply Z.mod_pow2_bits_low. lia.
  - rewrite Z.mod_pow2_bits_high by lia. symmetry. by apply Hbits.
Qed.

Lemma lxor_uint64 a b : is_uint64 a -> is_uint64 b -> is_uint64 (Z.lxor a b).
Proof.
  intros Ha Hb. apply bits_uint64.
  - apply Z.lxor_nonneg. unfold is_uint64 in *. lia.
  - intros k Hk. rewrite Z.lxor_spec, !uint64_bits_high by done. done.
Qed.

Lemma xorshift47_uint64 r : is_uint64 r -> is_uint64 (xorshift47 r).
Proof.
  intros Hr. unfold xorshift47. apply lxor_uint64; [done|].
  apply bits_uint64.
  - apply Z.shiftr_nonneg. unfold is_uint64 in Hr. lia.
  - intros k Hk. rewrite Z.shiftr_spec by lia. apply uint64_bits_high; [done|lia].
Qed.

(** Shifting by 47 twice leaves no bit of a 64-bit value, so the xor-shift
    undoes itself. *)
Lemma xorshift47_involutive r : is_uint64 r -> xorshift47 (xorshift47 r) = r.
Proof.
  intros Hr. unfold xorshift47. apply Z.bits_inj'. intros k Hk.
  rewrite !Z.lxor_spec, !Z.shiftr_spec, !Z.lxor_spec, !Z.shiftr_spec by lia.
  rewrite (uint64_bits_high r (k + 47 + 47)) by (done || lia).
  destruct (Z.testbit r k), (Z.testbit r (k + 47)); done.
Qed.

Lemma K_inverse_spec : (0x9ddfea08eb382d69 * K_inverse) mod 2 ^ 64 = 1.
Proof. reflexivity. Qed.

Lemma mul_K_undo_l a :
  is_uint64 a -> to_uint64 (K_inverse * to_uint64 (0x9ddfea08eb382d69 * a)) = a.
Proof.
  intros Ha. unfold to_uint64.
  rewrite Z.mul_mod_idemp_r by lia.
  rewrite Z.mul_assoc, (Z.mul_comm K_inverse), <- Z.mul_mod_idemp_l by lia.
  rewrite K_inverse_spec, Z.mul_1_l. by apply Z.mod_small.
Qed.

Lemma mul_K_undo_r a :
  is_uint64 a -> to_uint64 (to_uint64 (a * 0x9ddfea08eb382d69) * K_inverse) = a.
Proof.
  intros Ha. rewrite (Z.mul_comm _ K_inverse), (Z.mul_comm a). by apply mul_K_undo_l.
Qed.

Lemma mul_K_redo_l a :
  is_uint64 a -> to_uint64 (0x9ddfea08eb382d69 * to_uint64 (K_inverse * a)) = a.
Proof.
  intros Ha. unfold to_uint64.
  rewrite Z.mul_mod_idemp_r by lia.
  rewrite Z.mul_assoc, <- Z.mul_mod_idemp_l by lia.
  rewrite K_inverse_spec, Z.mul_1_l. by apply Z.mod_small.
Qed.

Lemma mul_K_redo_r a :
  is_uint64 a -> to_uint64 (to_uint64 (a * K_inverse) * 0x9ddfea08eb382d69) = a.
Proof.
  intros Ha. rewrite (Z.mul_comm _ 0x9ddfea08eb382d69), (Z.mul_comm a).
  by apply mul_K_redo_l.
Qed.

Lemma lxor_cancel_l y a : Z.lxor y (Z.lxor y a) = a.
Proof. by rewrite <- Z.lxor_assoc, Z.lxor_nilpotent, Z.lxor_0_l. Qed.

Lemma lxor_cancel_r y a : Z.lxor (Z.lxor a y) y = a.
Proof. by rewrite Z.lxor_assoc, Z.lxor_nilpotent, Z.lxor_0_r. Qed.

Lemma HashMix_range x y : is_uint64 (HashMix x y).
Proof. apply to_uint64_range. Qed.

Lemma HashMix_undo_range h y : is_uint64 y -> is_uint64 (HashMix_undo h y).
Proof. intros Hy. apply lxor_uint64; [apply to_uint64_range|done]. Qed.

Lemma HashMix_undo_l x y :
  is_uint64 x -> is_uint64 y -> HashMix_undo (HashMix x y) y = x.
Proof.
  intros Hx Hy. unfold HashMix_undo, HashMix. cbv zeta.
  set (r1 := to_uint64 (_ * Z.lxor x y)).
  fold (xorshift47 r1). set (r2 := xorshift47 r1).
  set (r3 := to_uint64 (Z.lxor y r2 * _)).
  fold (xorshift47 r3).
  assert (is_uint64 r1) as Hr1 by apply to_uint64_range.
  assert (is_uint64 r2) as Hr2 by by apply xorshift47_uint64.
  assert (is_uint64 r3) as Hr3 by apply to_uint64_range.
  rewrite mul_K_undo_l by by apply xorshift47_uint64.
  rewrite xorshift47_involutive by done.
  unfold r3. rewrite mul_K_undo_r by by apply lxor_uint64.
  rewrite lxor_cancel_l. unfold r2. rewrite xorshift47_involutive by done.
  unfold r1. rewrite mul_K_undo_l by by apply lxor_uint64.
  apply lxor_cancel_r.
Qed.

Lemma HashMix_undo_r h y :
  is_uint64 h -> is_uint64 y -> HashMix (HashMix_undo h y) y = h.
Proof.
  intros Hh Hy. unfold HashMix_undo, HashMix. cbv zeta.
  set (g3 := to_uint64 (K_inverse * h)).
  set (r3 := xorshift47 g3).
  set (v := to_uint64 (r3 * K_inverse)).
  set (r2 := Z.lxor y v).
  set (r1 := xorshift47 r2).
  set (u := to_uint64 (K_inverse * r1)).
  assert (is_uint64 g3) as Hg3 by apply to_uint64_range.
  assert (is_uint64 r3) as Hr3 by by apply xorshift47_uint64.
  assert (is_uint64 v) as Hv by apply to_uint64_range.
  assert (is_uint64 r2) as Hr2 by by apply lxor_uint64.
  assert (is_uint64 r1) as Hr1 by by apply xorshift47_uint64.
  rewrite lxor_cancel_r. unfold u. rewrite mul_K_redo_l by done.
  fold (xorshift47 r1). unfold r1. rewrite xorshift47_involutive by done.
  unfold r2. rewrite lxor_cancel_l. unfold v. rewrite mul_K_redo_r by done.
  fold (xorshift47 r3). unfold r3. rewrite xorshift47_involutive by done.
  unfold g3. by apply mul_K_redo_l.
Qed.

Lemma HashMix_inj_l x x' y :
  is_uint64 x -> is_uint64 x' -> is_uint64 y ->
  HashMix x y = HashMix x' y -> x = x'.
Proof.
  intros Hx Hx' Hy Heq.
  rewrite <- (HashMix_undo_l x y), <- (HashMix_undo_l x' y) by done.
  by rewrite Heq.
Qed.

(** X1.  For every fixed second argument [y], [HashMix] is a permutation of
    the 64-bit values in its first argument: its result is a 64-bit value,
    two different first arguments never give the same result, and every
    64-bit value is the result for some first argument.  (Each step of the
    function, the odd multiplier modulo 2^64 and the xor with the value
    shifted right by 47, can be run backwards.) *)
Theorem HashMix_permutes_first_argument y :
  is_uint64 y ->
  (forall x, is_uint64 (HashMix x y))
  /\ (forall x x', is_uint64 x -> is_uint64 x' -> HashMix x y = HashMix x' y -> x = x')
  /\ (forall h, is_uint64 h -> exists x, is_uint64 x /\ HashMix x y = h).
Proof.
  intros Hy. split_and!.
  - intros x. apply HashMix_range.
  - intros x x' Hx Hx'. by apply HashMix_inj_l.
  - intros h Hh. exists (HashMix_undo h y). split.
    + by apply HashMix_undo_range.
    + by apply HashMix_undo_r.
Qed.
End Hashing.

Section HashOverloads.
Local Open Scope Z_scope.

(** X2.  [Hash(int32_t)] converts the signed value to [uint64_t]: a value
    that is not negative hashes to itself, as under [Hash(uint32_t)]; a
    negative value [v] hashes to [2^64 + v], which no 32-bit unsigned value
    hashes to under [Hash(uint32_t)]; and different [int32_t] values hash
    differently. *)
Theorem Hash_int32_sign_extends v :
  is_int32 v ->
  is_uint64 (Hash_int32 v)
  /\ (0 <= v -> Hash_int32 v = v /\ Hash_int32 v = Hash_uint32 v)
  /\ (v < 0 -> Hash_int32 v = 2 ^ 64 + v
              /\ forall u, 0 <= u < 2 ^ 32 -> Hash_int32 v <> Hash_uint32 u)
  /\ (forall v', is_int32 v' -> Hash_int32 v = Hash_int32 v' -> v = v').
Proof.
  intros Hv. unfold is_int32 in Hv.
  assert (forall z, - 2 ^ 31 <= z < 0 -> Hash_int32 z = 2 ^ 64 + z) as Hneg.
  { intros z Hz. unfold Hash_int32, to_uint64.
    rewrite <- (Z.mod_add z 1 (2 ^ 64)) by lia.
    replace (2 ^ 64 + z) with (z + 1 * 2 ^ 64) by lia. apply Z.mod_small. lia. }
  assert (forall z, 0 <= z < 2 ^ 31 -> Hash_int32 z = z) as Hpos.
  { intros z Hz. apply Z.mod_small. lia. }
  split_and!.
  - apply to_uint64_range.
  - intros H0. unfold Hash_uint32. split; apply Hpos; lia.
  - intros H0. split; [apply Hneg; lia|].
    intros u Hu. rewrite Hneg by lia. unfold Hash_uint32. lia.
  - intros v' Hv'. unfold is_int32 in Hv'.
    destruct (Z_lt_le_dec v 0), (Z_lt_le_dec v' 0);
      rewrite ?(Hneg v), ?(Hneg v'), ?(Hpos v), ?(Hpos v') by lia; lia.
Qed.

(** X3.  With the later arguments fixed, each [HashMulti] overload (two,
    three and four arguments) collides on two first arguments only if
    their [Hash] values are already equal: the chained [HashMix] calls add
    no collision in the first argument. *)
Theorem HashMulti_first_argument {T1 T2 T3 T4}
    (Hash1 : T1 -> Z) (Hash2 : T2 -> Z) (Hash3 : T3 -> Z) (Hash4 : T4 -> Z)
    (a a' : T1) (b : T2) (c : T3) (d : T4) :
  is_uint64 (Hash1 a) -> is_uint64 (Hash1 a') ->
  is_uint64 (Hash2 b) -> is_uint64 (Hash3 c) -> is_uint64 (Hash4 d) ->
  (HashMulti2 Hash1 Hash2 a b = HashMulti2 Hash1 Hash2 a' b -> Hash1 a = Hash1 a')
  /\ (HashMulti3 Hash1 Hash2 Hash3 a b c = HashMulti3 Hash1 Hash2 Hash3 a' b c ->
      Hash1 a = Hash1 a')
  /\ (HashMulti4 Hash1 Hash2 Hash3 Hash4 a b c d
      = HashMulti4 Hash1 Hash2 Hash3 Hash4 a' b c d ->
      Hash1 a = Hash1 a').
Proof.
  intros Ha Ha' Hb Hc Hd. unfold HashMulti2, HashMulti3, HashMulti4. cbv zeta.
  split_and!.
  - by apply HashMix_inj_l.
  - intros Heq. apply HashMix_inj_l in Heq; try done; try apply HashMix_range.
    by apply HashMix_inj_l in Heq.
  - intros Heq. apply HashMix_inj_l in Heq; try done; try apply HashMix_range.
    apply HashMix_inj_l in Heq; try done; try apply HashMix_range.
    by apply HashMix_inj_l in Heq.
Qed.

End HashOverloads.

(** ** What a firing cannot change *)

Section Preservation.
Context `{PhaseBits} `{LuaCode}.

Variable R : World -> World -> Prop.
Hypothesis R_trans : forall w1 w2 w3, R w1 w2 -> R w2 w3 -> R w1 w3.
Hypothesis R_same : forall w w', same_registry w w' -> R w w'.
Hypothesis R_Subscribe : forall n a t handler w, R w (Subscribe n a t handler w).

Section Call.
Variable call : nat -> World -> Outcome (CallStatus * World * list Invocation).
Hypothesis call_R : forall n w, partial (fun '(_, w', _) => R w w') (call n w).

Lemma RunHandler_args_related func args w :
  partial (related R w) (RunHandler_args call func args w).
Proof.
  unfold RunHandler_args, lua_checkstack. rewrite push_args. simpl.
  match goal with |- context [call ?n ?w0] =>
    pose proof (call_R n w0) as Hc;
    assert (R w w0) as Hpush by (apply R_same; by repeat split);
    destruct (call n w0) as [[[st w1] t]| |]
  end; simpl in *; [|done..].
  assert (forall w2, same_registry w1 w2 -> R w w2) as Hfin.
  { intros w2 Hs. eapply R_trans; [exact Hpush|]. eapply R_trans; [exact Hc|].
    by apply R_same. }
  destruct st as [code|].
  - destruct (decide _); simpl; apply Hfin; by repeat split.
  - destruct (decide _); simpl; apply Hfin; by repeat split.
Qed.

Lemma for_each_index_related run indices n : forall i w,
  (forall func w, partial (related R w) (run func w)) ->
  partial (related R w) (for_each_index run indices n i w).
Proof.
  induction n as [|n IH]; intros i w Hrun; simpl.
  { apply R_same. by repeat split. }
  destruct (arrays w !! indices ≫= _) as [index|]; [|done].
  destruct (subscribers_ (callbacks w) !! index) as [func|]; [|done].
  pose proof (Hrun func w) as Hr.
  destruct (run func w) as [[w1 t1]| |]; simpl in *; [|done..].
  specialize (IH (S i) w1 Hrun).
  destruct (for_each_index run indices n (S i) w1) as [[w2 t2]| |]; simpl in *; [|done..].
  by eapply R_trans.
Qed.

Lemma RunHandlers_args_related nodeRef args w :
  partial (related R w) (RunHandlers_args call nodeRef args w).
Proof.
  assert (R w w) as Hrefl by (apply R_same; by repeat split).
  unfold RunHandlers_args. destruct (decide _); [done|].
  destruct (luaAvailable w); [|done].
  unfold pendingCallbacks_Enter.
  destruct (Enter _ _ _) as [[[entry p] heap]| |]; simpl; [|done..].
  match goal with |- context [for_each_index ?run ?e ?n 0 ?w1] =>
    pose proof (for_each_index_related run e n 0 w1
                  (fun func w => RunHandler_args_related func args w)) as Hloop;
    assert (R w w1) as Henter by (apply R_same; by repeat split);
    destruct (for_each_index run e n 0 w1) as [[w2 t]| |]
  end; simpl in *; [|done..].
  unfold pendingCallbacks_Exit. destruct (Exit _ _); simpl; [|done..].
  eapply R_trans; [exact Henter|]. eapply R_trans; [exact Hloop|].
  apply R_same. by repeat split.
Qed.

Lemma RunHandlers_tuple_related nodeRef tuple w :
  partial (related R w) (RunHandlers_tuple call nodeRef tuple w).
Proof.
  rewrite RunHandlers_tuple_args. destruct (merging_ (callbacks w)).
  - apply R_same. by repeat split.
  - apply RunHandlers_args_related.
Qed.

Lemma dispatch_related h w : partial (related R w) (dispatch call h w).
Proof.
  destruct h; simpl;
    first [apply RunHandlers_tuple_related | apply RunHandlers_args_related].
Qed.

Lemma run_script_related acts : forall w,
  partial (related R w) (run_script call acts w).
Proof.
  induction acts as [|a acts IH]; intros w; simpl.
  { apply R_same. by repeat split. }
  assert (partial (related R w) (perform call a w)) as Hp.
  { destruct a as [n ar t handler|h]; simpl.
    - apply R_Subscribe.
    - apply dispatch_related. }
  destruct (perform call a w) as [[w1 t1]| |]; simpl in *; [|done..].
  specialize (IH w1).
  destruct (run_script call acts w1) as [[w2 t2]| |]; simpl in *; [|done..].
  by eapply R_trans.
Qed.
End Call.

Lemma CallWithTraceback_related fuel : forall n w,
  partial (fun '(_, w', _) => R w w') (CallWithTraceback fuel n w).
Proof.
  induction fuel as [|fuel IH]; intros n w; simpl; [done|].
  destruct (L w !! n) as [[h| | |]|] eqn:Hn; simpl;
    try (apply R_same; by repeat split).
  cbv zeta. set (args := omap _ (reverse (take n (L w)))).
  pose proof (run_script_related (CallWithTraceback fuel) IH
                (body (program h args)) w) as Hr.
  destruct (run_script _ _ w) as [[w1 nested]| |]; simpl in *; [|done..].
  destruct (result _); simpl;
    (eapply R_trans; [exact Hr|]; apply R_same; by repeat split).
Qed.

(** Whatever relation every subscription respects, and that does not look
    at the pool, the heap, the stack or the console, every completed firing
    respects. *)
Lemma fire_related fuel h w w' t :
  fire fuel h w = Done (w', t) -> R w w'.
Proof.
  intros Hfire.
  pose proof (dispatch_related (CallWithTraceback fuel)
                (CallWithTraceback_related fuel) h w) as Hd.
  unfold fire in Hfire. by rewrite Hfire in Hd.
Qed.
End Preservation.

(** ** Invariants of the registry and of the hook latch *)

Section Invariants.
Context `{PhaseBits} `{LuaCode}.

Lemma same_registry_derived w w' :
  same_registry w w' -> node_map_derived w -> node_map_derived w'.
Proof.
  intros (Hs & Hn & Hnd & Hl & _ & _ & Hst & _) Hd. unfold node_map_derived in *.
  by rewrite Hnd, Hl, Hst, Hn.
Qed.

Lemma Subscribe_derived n a t handler w :
  node_map_derived w -> node_map_derived (Subscribe n a t handler w).
Proof.
  intros Hd. unfold node_map_derived in *.
  destruct (Subscribe_fields n a t handler w)
    as (_ & Hn & Hnd & _ & Hl & _ & _ & Hst & _).
  simpl in Hn, Hnd. rewrite Hn, Hnd, Hl, Hst.
  destruct (storyLoaded_ (callbacks w)).
  - rewrite omap_app. apply Permutation_app; [exact Hd|].
    unfold resolved_entry. simpl. by destruct (resolve _ _).
  - by rewrite app_nil_r.
Qed.

Lemma StoryLoaded_derived order w :
  order ≡ₚ nameSubscriberRefs_ (callbacks w) ->
  node_map_derived (StoryLoaded order w).
Proof.
  intros Hperm. unfold node_map_derived.
  destruct (StoryLoaded_fields order w)
    as (_ & -> & _ & -> & _ & _ & -> & _ & _ & ->).
  fold (resolved_entry (story w)).
  change (fun it : OsirisHookSignature * nat =>
            (fun nodeRef : Z => (nodeRef, it.2)) <$> resolve (story w) it.1)
    with (resolved_entry (story w)).
  by rewrite Hperm.
Qed.

Lemma dispatch_nothing_to_do call h w :
  nodeSubscriberRefs_ (callbacks w) = [] -> dispatch call h w = Done (w, []).
Proof.
  intros Hempty.
  destruct h; simpl;
    unfold InsertPreHook, InsertPostHook, CallQueryPreHook, CallQueryPostHook,
      CallPreHook, CallPostHook, EventPreHook, EventPostHook,
      RunHandlers_tuple, RunHandlers_args;
    rewrite Hempty; simpl; by destruct (merging_ (callbacks w)).
Qed.

Lemma step_derived w w' : step w w' -> node_map_derived w -> node_map_derived w'.
Proof.
  intros Hstep Hd. destruct Hstep as [n a t handler w| order st w [Hperm _]| b w| w
    | available stack w| fuel h w w' t Hfire].
  - by apply Subscribe_derived.
  - by apply StoryLoaded_derived.
  - exact Hd.
  - pose proof (HookOsiris_frame w) as Hh. simpl in Hh.
    destruct Hh as (_ & Hn & Hnd & _ & Hl & _ & _ & Hst & _).
    unfold node_map_derived in *. by rewrite Hnd, Hl, Hst, Hn.
  - exact Hd.
  - revert Hd.
    apply (fire_related (fun w w' => node_map_derived w -> node_map_derived w'))
      with (fuel := fuel) (h := h) (t := t); [| | |exact Hfire].
    + auto.
    + intros. by eapply same_registry_derived.
    + intros. by apply Subscribe_derived.
Qed.

Lemma reachable_derived w : reachable w -> node_map_derived w.
Proof.
  induction 1 as [w Hinit|w w' _ IH Hstep].
  - unfold initial in Hinit. unfold node_map_derived. by rewrite Hinit.
  - by eapply step_derived.
Qed.

(** X14.  In every state the manager can reach the node map is determined
    by the name map: before the first story load it is empty, and no
    firing calls a handler; afterwards it holds, up to order, one entry
    for each name-map entry whose signature resolves in the story, with
    the same handler index. *)
Theorem node_map_follows_name_map w :
  reachable w ->
  node_map_derived w
  /\ (forall nodeRef index,
        (nodeRef, index) ∈ nodeSubscriberRefs_ (callbacks w) ->
        storyLoaded_ (callbacks w) = true
        /\ exists sig,
             (sig, index) ∈ nameSubscriberRefs_ (callbacks w)
             /\ resolve (story w) sig = Some nodeRef)
  /\ (forall sig index nodeRef,
        storyLoaded_ (callbacks w) = true ->
        (sig, index) ∈ nameSubscriberRefs_ (callbacks w) ->
        resolve (story w) sig = Some nodeRef ->
        (nodeRef, index) ∈ nodeSubscriberRefs_ (callbacks w))
  /\ (storyLoaded_ (callbacks w) = false ->
      forall call h, dispatch call h w = Done (w, [])).
Proof.
  intros Hr. pose proof (reachable_derived w Hr) as Hd.
  split; [exact Hd|]. unfold node_map_derived in Hd.
  destruct (storyLoaded_ (callbacks w)) eqn:Hl.
  - split_and!.
    + intros nodeRef index Hin. split; [done|].
      rewrite Hd in Hin. apply list_elem_of_omap in Hin as ([sig i] & Hin & Hres).
      unfold resolved_entry in Hres. simpl in Hres.
      destruct (resolve (story w) sig) as [r|] eqn:Hr'; simpl in Hres; simplify_eq.
      eauto.
    + intros sig index nodeRef _ Hin Hres. rewrite Hd.
      apply list_elem_of_omap. exists (sig, index). split; [done|].
      unfold resolved_entry. simpl. by rewrite Hres.
    + done.
  - apply Permutation_nil_r in Hd. split_and!.
    + intros nodeRef index Hin. rewrite Hd in Hin. by apply elem_of_nil in Hin.
    + done.
    + intros _ call h. by apply dispatch_nothing_to_do.
Qed.

Lemma latch_refl w : latch w w.
Proof. by left. Qed.

Lemma latch_trans w1 w2 w3 : latch w1 w2 -> latch w2 w3 -> latch w1 w3.
Proof.
  unfold latch. intros [[Ha Hb]|(Ha & Hb & Hc)] [[Hd He]|(Hd & He & Hf)].
  - left. split; congruence.
  - right. split_and!; congruence.
  - right. split_and!; congruence.
  - congruence.
Qed.

Lemma latch_HookOsiris w : latch w (HookOsiris w).
Proof.
  unfold latch, HookOsiris. destruct (osirisHooked_ (callbacks w)) eqn:E.
  - left. by rewrite E.
  - right. simpl. split_and!; try done. by rewrite <- app_assoc.
Qed.

Lemma RegisterNodeHandler_latch sig handlerId w : latch w (RegisterNodeHandler sig handlerId w).
Proof.
  pose proof (RegisterNodeHandler_frame sig handlerId w) as Hf. simpl in Hf.
  destruct Hf as (_ & _ & _ & _ & Hh & _ & _ & _ & Ho & _). by left.
Qed.

Lemma Subscribe_latch n a t handler w : latch w (Subscribe n a t handler w).
Proof.
  unfold Subscribe. simpl.
  destruct (storyLoaded_ (callbacks w)).
  - eapply latch_trans; [|apply RegisterNodeHandler_latch].
    eapply latch_trans; [|apply latch_HookOsiris]. by left.
  - by left.
Qed.

Lemma StoryLoaded_latch order w : latch w (StoryLoaded order w).
Proof.
  unfold StoryLoaded.
  match goal with |- latch _ (foldl ?f ?w0 order) =>
    assert (latch w w0) as Hfrom
  end.
  { eapply latch_trans; [apply latch_HookOsiris|]. by left. }
  revert Hfrom. generalize (with_callbacks
    (fun m => set_nodeSubscriberRefs (Multimap.clear (nodeSubscriberRefs_ m)) m)
    (with_callbacks (set_storyLoaded true) (HookOsiris w))).
  induction order as [|it order IH]; intros w0 Hfrom; simpl; [done|].
  apply IH. eapply latch_trans; [exact Hfrom|apply RegisterNodeHandler_latch].
Qed.

Lemma step_latch w w' : step w w' -> latch w w'.
Proof.
  intros Hstep. destruct Hstep as [n a t handler w| order st w _| b w| w
    | available stack w| fuel h w w' t Hfire].
  - apply Subscribe_latch.
  - eapply latch_trans; [|apply StoryLoaded_latch]. by left.
  - by left.
  - apply latch_HookOsiris.
  - by left.
  - apply (fire_related latch latch_trans) with (fuel := fuel) (h := h) (t := t);
      [| |exact Hfire].
    + intros w1 w2 (_ & _ & _ & _ & Hh & _ & _ & Ho & _). by left.
    + apply Subscribe_latch.
Qed.

Lemma steps_latch w w' : rtc step w w' -> latch w w'.
Proof.
  induction 1 as [w|w1 w2 w3 Hstep _ IH]; [apply latch_refl|].
  eapply latch_trans; [by apply step_latch|exact IH].
Qed.

(** X13.  Over any sequence of operations on the manager (subscriptions,
    story loads, firings with nested handlers, ...) the extender is asked
    to hook the node VMTs and to bind the manager at most once, at the
    moment the latch is set; once set the latch stays set.  The destructor
    then unbinds the manager exactly when it was bound. *)
Theorem hooks_installed_at_most_once w0 w :
  rtc step w0 w ->
  (osirisHooked_ (callbacks w0) = true ->
   osirisHooked_ (callbacks w) = true /\ osiris w = osiris w0)
  /\ (osirisHooked_ (callbacks w0) = false ->
      osiris w = osiris w0 ++ installation w
      /\ osiris (OsirisCallbackManager_delete w)
         = osiris w0
           ++ if osirisHooked_ (callbacks w)
              then [HookNodeVMTs; BindCallbackManager true; BindCallbackManager false]
              else []).
Proof.
  intros Hsteps. pose proof (steps_latch w0 w Hsteps) as Hl.
  unfold latch in Hl. unfold installation, OsirisCallbackManager_delete. split.
  - intros Hfrom. destruct Hl as [[Ha Hb]|(Ha & _)]; [|congruence].
    split; congruence.
  - intros Hfrom. destruct Hl as [[Ha Hb]|(_ & Ha & Hb)].
    + rewrite Ha, Hfrom, Hb. by rewrite !app_nil_r.
    + rewrite Ha. simpl. rewrite Hb. split; [done|]. by rewrite <- app_assoc.
Qed.
End Invariants.

(** ** Registration, story load and routing *)

Section Registration.
Context `{PhaseBits} `{LuaCode}.

Lemma registration_report_resolve st sig :
  registration_report st sig = [] <-> is_Some (resolve st sig).
Proof.
  unfold registration_report, resolve, accepted, not_hookable, is_event_or_call,
    phase_is_delete.
  destruct (LookupBacking st sig) as [func|]; [|split; [done|by intros [? ?]]].
  destruct (Type_ func), (type sig), (Get (Node func)); simpl;
    split; (done || by intros [? ?] || eauto).
Qed.

Lemma RegisterNodeHandler_console sig handlerId w :
  console (RegisterNodeHandler sig handlerId w)
  = console w ++ registration_report (story w) sig.
Proof.
  unfold RegisterNodeHandler, registration_report, not_hookable.
  destruct (LookupBacking (story w) sig) as [func|]; [|done].
  destruct (Type_ func), (type sig), (Get (Node func)); simpl;
    by rewrite ?app_nil_r.
Qed.

(** X4.  [RegisterNodeHandler] does exactly one of two things: it inserts
    one entry for the handler into the node map and writes nothing, or it
    leaves the node map alone and writes exactly one warning.  Which
    warning is a function of the symbol found and of the phase asked for:
    symbol missing (for a user query, its [__DEF__] symbol missing), kind
    that cannot be hooked (no node, or none of the six kinds), or a delete
    phase on an event or call. *)
Theorem RegisterNodeHandler_entry_or_warning sig handlerId w :
  let w' := RegisterNodeHandler sig handlerId w in
  console w' = console w ++ registration_report (story w) sig
  /\ ((registration_report (story w) sig = []
       /\ exists nodeRef,
            resolve (story w) sig = Some nodeRef
            /\ nodeSubscriberRefs_ (callbacks w')
               = nodeSubscriberRefs_ (callbacks w) ++ [(nodeRef, handlerId)])
      \/ ((exists d, registration_report (story w) sig = [d])
          /\ resolve (story w) sig = None
          /\ nodeSubscriberRefs_ (callbacks w') = nodeSubscriberRefs_ (callbacks w))).
Proof.
  cbv zeta. split; [apply RegisterNodeHandler_console|].
  rewrite RegisterNodeHandler_nodes.
  pose proof (registration_report_resolve (story w) sig) as Hiff.
  destruct (resolve (story w) sig) as [nodeRef|] eqn:Hres.
  - left. split; [apply Hiff; eauto|eauto].
  - right. split; [|done].
    unfold registration_report in *.
    destruct (LookupBacking (story w) sig) as [func|]; [|eauto].
    destruct (Type_ func), (type sig), (Get (Node func)); simpl in *; eauto;
      exfalso; by destruct (proj1 Hiff eq_refl).
Qed.
End Registration.

Section Loading.
Context `{PhaseBits} `{LuaCode}.



End Loading.

Section Routing.
Context `{PhaseBits} `{LuaCode}.

Lemma dispatch_hook_nodeRef call h w :
  dispatch call h w
  = match h with
    | OnInsertPre _ tuple _ | OnInsertPost _ tuple _ =>
        RunHandlers_tuple call (hook_nodeRef h) tuple w
    | OnCallQueryPre _ args | OnCallQueryPost _ args _
    | OnCallPre _ args | OnCallPost _ args _
    | OnEventPre _ args | OnEventPost _ args =>
        RunHandlers_args call (hook_nodeRef h) args w
    end.
Proof. destruct h as [? ? []|? ? []| | | | | |]; reflexivity. Qed.




(** X9.  A firing with nothing to do changes nothing and calls no handler,
    whatever the protected call would do: when the node reference has no
    subscriber, when the Lua state is not available, or, for the insert
    hooks only, while merging.  In particular the pool is not entered. *)
Theorem dispatch_without_work call h w :
  Multimap.equal_range (hook_nodeRef h) (nodeSubscriberRefs_ (callbacks w)) = []
  \/ luaAvailable w = false
  \/ (hook_has_tuple h = true /\ merging_ (callbacks w) = true) ->
  dispatch call h w = Done (w, []).
Proof.
  intros Hcase. rewrite dispatch_hook_nodeRef.
  assert (forall nodeRef args,
            Multimap.equal_range nodeRef (nodeSubscriberRefs_ (callbacks w)) = []
            \/ luaAvailable w = false ->
            RunHandlers_args call nodeRef args w = Done (w, [])) as Hargs.
  { intros nodeRef args [Hempty|Hlua]; unfold RunHandlers_args.
    - by rewrite Hempty.
    - rewrite Hlua. by destruct (decide _). }
  assert (forall nodeRef tuple,
            Multimap.equal_range nodeRef (nodeSubscriberRefs_ (callbacks w)) = []
            \/ luaAvailable w = false
            \/ merging_ (callbacks w) = true ->
            RunHandlers_tuple call nodeRef tuple w = Done (w, [])) as Htuple.
  { intros nodeRef tuple Hc. rewrite RunHandlers_tuple_args.
    destruct (merging_ (callbacks w)); [done|].
    apply Hargs. destruct Hc as [?|[?|?]]; auto. done. }
  destruct h; simpl in Hcase;
    first [apply Htuple | apply Hargs];
    destruct Hcase as [?|[?|[? ?]]]; auto; done.
Qed.
End Routing.

(** ** Life of the pooled arrays *)

Section PoolLife.
Context `{PhaseBits} `{LuaCode}.

Lemma filter_all {A} (P : A -> Prop) `{!forall x, Decision (P x)} (l : list A) :
  (forall a, P a) -> filter P l = l.
Proof.
  intros HP. induction l as [|a l IH]; [done|].
  rewrite filter_cons_True by done. by rewrite IH.
Qed.

Lemma delete_failed cache :
  foldl (fun st entry => st ≫= GameDelete entry) None cache = None.
Proof. induction cache as [|e cache IH]; simpl; [done|exact IH]. Qed.

Lemma delete_spec cache : forall live live',
  foldl (fun st entry => st ≫= GameDelete entry) (Some live) cache = Some live'
  <-> NoDup cache /\ Forall (fun a => a ∈ live) cache
      /\ live' = filter (fun a => a ∉ cache) live.
Proof.
  induction cache as [|e cache IH]; intros live live'; simpl.
  - split.
    + intros [= <-]. split_and!; [constructor|constructor|].
      symmetry. apply filter_all. intros a. apply not_elem_of_nil.
    + intros (_ & _ & ->). f_equal. symmetry.
      apply filter_all. intros a. apply not_elem_of_nil.
  - unfold GameDelete at 2. destruct (decide (e ∈ live)) as [Hin|Hnin]; simpl.
    + rewrite IH. split.
      * intros (Hnd & Hall & ->). rewrite Forall_forall in Hall.
        assert (e ∉ cache) as Hfresh.
        { intros He. specialize (Hall _ He). apply list_elem_of_filter in Hall. by destruct Hall. }
        split_and!.
        -- by constructor.
        -- constructor; [done|]. apply Forall_forall. intros a Ha.
           specialize (Hall _ Ha). apply list_elem_of_filter in Hall. by destruct Hall.
        -- rewrite list_filter_filter. apply list_filter_iff. intros a.
           rewrite not_elem_of_cons. tauto.
      * intros (Hnd & Hall & ->). apply NoDup_cons in Hnd as [Hfresh Hnd].
        apply Forall_cons in Hall as [_ Hall]. split_and!; [done| |].
        -- rewrite Forall_forall in *. intros a Ha. apply list_elem_of_filter.
           split; [|by apply Hall]. intros ->. done.
        -- rewrite list_filter_filter. apply list_filter_iff. intros a.
           rewrite not_elem_of_cons. tauto.
    + rewrite delete_failed. split; [done|].
      intros (_ & Hall & _). apply Forall_cons in Hall as [? _]. done.
Qed.

(** X12.  In every state the manager can reach, the destructor of the pool
    releases every pooled array exactly once and nothing else: all its
    [GameDelete] calls are on allocated arrays, and what stays allocated
    are the arrays the pool does not own.  In general the destructor runs
    without a double or stray release exactly when the pool holds no
    address twice and only allocated ones. *)
Theorem destructor_releases_each_array_once w :
  reachable w ->
  (exists live',
     PendingCallbackManager_delete (pendingCallbacks_ (callbacks w)) (allocated w)
     = Some live'
     /\ (forall a, a ∈ live'
           <-> a < length (arrays w) /\ a ∉ cache_ (pendingCallbacks_ (callbacks w)))
     /\ length live' + length (cache_ (pendingCallbacks_ (callbacks w)))
        = length (arrays w))
  /\ (forall p live,
        is_Some (PendingCallbackManager_delete p live)
        <-> NoDup (cache_ p) /\ Forall (fun a => a ∈ live) (cache_ p)).
Proof.
  intros Hr. destruct (reachable_wf w Hr) as [_ (Hd & Hnd & Hb)]. split.
  - set (cache := cache_ (pendingCallbacks_ (callbacks w))) in *.
    exists (filter (fun a => a ∉ cache) (allocated w)).
    assert (Forall (fun a => a ∈ allocated w) cache) as Hlive.
    { eapply Forall_impl; [exact Hb|]. intros a Ha. simpl in Ha.
      apply elem_of_seq. lia. }
    split_and!.
    + unfold PendingCallbackManager_delete. by apply delete_spec.
    + intros a. rewrite list_elem_of_filter. unfold allocated. rewrite elem_of_seq.
      split; [intros [? ?]; split; [lia|done]|intros [? ?]; split; [done|lia]].
    + pose proof (filter_app_complement (fun a => a ∈ cache) (allocated w)) as Hp.
      apply Permutation_length in Hp. rewrite length_app in Hp.
      unfold allocated in Hp at 3. rewrite length_seq in Hp.
      assert (filter (fun a => a ∈ cache) (allocated w) ≡ₚ cache) as Hsame.
      { apply NoDup_Permutation; [apply NoDup_filter, NoDup_seq|done|].
        intros a. rewrite list_elem_of_filter. rewrite Forall_forall in Hlive.
        split; [by intros [? _]|]. intros Ha. split; [done|by apply Hlive]. }
      apply Permutation_length in Hsame. rewrite Hsame in Hp. lia.
  - intros p live. unfold PendingCallbackManager_delete. split.
    + intros [live' Hl]. apply delete_spec in Hl. tauto.
    + intros [Hn Ha]. eexists. apply delete_spec. eauto.
Qed.

Lemma Enter_size range p heap v p1 heap1 :
  Enter range p heap = Done (v, p1, heap1) ->
  length (cache_ p1)
  = if bool_decide (length (cache_ p) <= depth_ p)
    then S (length (cache_ p)) else length (cache_ p).
Proof.
  unfold Enter, GameAlloc. case_bool_decide as Hfull.
  - destruct (_ !! depth_ p) as [e|]; [|done].
    destruct (_ !! e); [|done]. intros [= _ <- _].
    cbn [cache_]. rewrite length_app. simpl. lia.
  - destruct (_ !! depth_ p) as [e|]; [|done].
    destruct (_ !! e); [|done]. by intros [= _ <- _].
Qed.

(** X11.  [Enter] allocates only when the pool has no array for the current
    depth; the pool then has one array more, otherwise as many as before.
    After the matching [Exit] the next [Enter] at that depth returns the
    same array without allocating, and the array then holds the new range
    only: nothing of the earlier snapshot is left in it. *)
Theorem Enter_reuses_released_array r1 r2 p heap v p1 heap1 :
  depth_ p <= length (cache_ p) ->
  NoDup (cache_ p) ->
  Forall (fun a => a < length heap) (cache_ p) ->
  Enter r1 p heap = Done (v, p1, heap1) ->
  length (cache_ p1) = Nat.max (length (cache_ p)) (S (depth_ p))
  /\ heap1 !! v = Some r1
  /\ Exit v p1 = Done (mkPending (cache_ p1) (depth_ p))
  /\ Enter r2 (mkPending (cache_ p1) (depth_ p)) heap1
     = Done (v, p1, <[v := r2]> heap1).
Proof.
  intros Hd Hnd Hb HE.
  destruct (Enter_spec r1 p heap Hd Hnd Hb)
    as (entry & cache' & heap' & HE' & Hslot & Hcontent & Hpre & Hnd' & Hb' & Hlen & _).
  rewrite HE in HE'. injection HE' as -> -> ->.
  pose proof (Enter_size r1 p heap entry _ heap' HE) as Hsize.
  cbn [cache_] in Hsize.
  cbn [cache_ depth_]. split_and!; [case_bool_decide; lia|exact Hcontent| |].
  - by apply Exit_spec.
  - assert (entry < length heap') as Hlt.
    { by eapply lookup_lt_Some. }
    unfold Enter. cbn [cache_ depth_].
    assert (depth_ p < length cache') as Hin by (by eapply lookup_lt_Some).
    rewrite bool_decide_eq_false_2 by lia.
    rewrite Hslot, Hcontent. by rewrite Enter_fill.
Qed.
End PoolLife.

Section Frame.
Context `{PhaseBits} `{LuaCode}.

Lemma step_depth w w' :
  wf w -> step w w' ->
  depth_ (pendingCallbacks_ (callbacks w')) = depth_ (pendingCallbacks_ (callbacks w)).
Proof.
  intros Hwf Hstep. destruct Hstep as [n a t handler w| order st w _| b w| w
    | available stack w| fuel h w w' t Hfire].
  - by destruct (Subscribe_fields n a t handler w) as (_ & _ & _ & -> & _).
  - by destruct (StoryLoaded_fields order (set_story st w)) as (_ & _ & -> & _).
  - done.
  - pose proof (HookOsiris_frame w) as Hh. simpl in Hh.
    by destruct Hh as (_ & _ & _ & -> & _).
  - done.
  - pose proof (fire_spec fuel h w Hwf) as Hs. rewrite Hfire in Hs.
    destruct Hs as (_ & Hext & _). apply Hext.
Qed.

Lemma reachable_depth w :
  reachable w -> depth_ (pendingCallbacks_ (callbacks w)) = 0.
Proof.
  induction 1 as [w Hinit|w w' Hr IH Hstep].
  - unfold initial in Hinit. by rewrite Hinit.
  - rewrite (step_depth w w' (reachable_wf w Hr) Hstep). exact IH.
Qed.

(** X10.  In every state the manager can reach the pool's depth is zero:
    every [Enter] of a firing has been matched by its [Exit].  A firing
    from such a state does not fail, and when it completes, with handlers
    nested to any depth, the state is again reachable, the depth is zero
    again, the pool has kept the arrays it had, and the Lua stack, the
    merging flag, the loaded flag, the story and the availability of Lua
    are as before. *)
Theorem firing_frame fuel h w :
  reachable w ->
  depth_ (pendingCallbacks_ (callbacks w)) = 0
  /\ (forall f, fire fuel h w <> Crash f)
  /\ (forall w' t,
        fire fuel h w = Done (w', t) ->
        reachable w'
        /\ depth_ (pendingCallbacks_ (callbacks w')) = 0
        /\ cache_ (pendingCallbacks_ (callbacks w))
             `prefix_of` cache_ (pendingCallbacks_ (callbacks w'))
        /\ L w' = L w
        /\ merging_ (callbacks w') = merging_ (callbacks w)
        /\ storyLoaded_ (callbacks w') = storyLoaded_ (callbacks w)
        /\ story w' = story w
        /\ luaAvailable w' = luaAvailable w).
Proof.
  intros Hr. pose proof (reachable_wf w Hr) as Hwf.
  pose proof (fire_spec fuel h w Hwf) as Hs.
  split_and!.
  - by apply reachable_depth.
  - intros f Hf. by rewrite Hf in Hs.
  - intros w' t Hfire. rewrite Hfire in Hs. destruct Hs as (_ & Hext & HL).
    assert (reachable w') as Hr' by (eapply reachable_step; [exact Hr|by econstructor]).
    split_and!; try apply Hext; try done.
    by apply reachable_depth.
Qed.
End Frame.

(** ** Arguments and diagnostics of one handler call *)

Section Marshalling.
Context `{PhaseBits} `{LuaCode}.

Lemma pushed_arguments (args : list OsiValue) func (stack : list LuaValue) :
  omap (fun v => match v with LArg a => Some a | _ => None end)
    (reverse (take (length args) (reverse (LArg <$> args) ++ LFunction func :: stack)))
  = args.
Proof.
  rewrite take_app_length' by (by rewrite length_reverse, length_fmap).
  rewrite reverse_involutive.
  induction args as [|a args IH]; [done|].
  rewrite fmap_cons. cbn [omap list_omap]. by rewrite IH.
Qed.

(** X15.  [RunHandler] hands the handler the arguments of the firing in
    their order, first argument first (a null tuple gives no argument);
    the two overloads agree.  After the call it writes nothing when the
    handler returned, one handler-failed error when the handler raised a
    script error, and for a native exception one callback-failed error
    when values are left above the saved stack size and one internal error
    when none is.  Apart from the console and the Lua stack it leaves the
    state as the handler left it. *)
Theorem RunHandler_passes_arguments_and_reports fuel func tuple w w' t :
  RunHandler_tuple (CallWithTraceback fuel) func tuple w = Done (w', t) ->
  let args := default [] tuple in
  RunHandler_args (CallWithTraceback fuel) func args w = Done (w', t)
  /\ exists w1 nested,
       run_script (CallWithTraceback (pred fuel)) (body (program func args))
         (set_L (reverse (LArg <$> args) ++ LFunction func :: L w) w)
       = Done (w1, nested)
       /\ t = [Invoked func args nested]
       /\ console w' = console w1 ++ handler_report (result (program func args))
       /\ same_core w1 w'.
Proof.
  rewrite (RunHandler_tuple_args (CallWithTraceback fuel)).
  generalize (default [] tuple). clear tuple. intros args Hrun. cbv zeta.
  split; [exact Hrun|].
  destruct fuel as [|fuel].
  { revert Hrun. unfold RunHandler_args, lua_checkstack. rewrite push_args. done. }
  revert Hrun. unfold RunHandler_args, lua_checkstack. rewrite push_args.
  cbn [CallWithTraceback]. cbn [L set_L Push]. rewrite Nat.add_0_l, pushed_function.
  cbv zeta. rewrite pushed_arguments. cbn [pred].
  change (set_L (reverse (LArg <$> args) ++ LFunction func :: L w) (Push func w))
    with (set_L (reverse (LArg <$> args) ++ LFunction func :: L w) w).
  set (w0 := set_L (reverse (LArg <$> args) ++ LFunction func :: L w) w).
  pose proof (run_script_stack (CallWithTraceback fuel) (CallWithTraceback_stack fuel)
                (body (program func args)) w0) as Hstack.
  destruct (run_script _ _ w0) as [[w1 nested]| |]; simpl in Hstack |- *; [|done..].
  assert (drop (S (length args)) (L w1) = L w) as Hbase.
  { rewrite Hstack. unfold w0. cbn [L set_L]. apply pushed_base. }
  intros Hrun. exists w1, nested. split; [done|].
  destruct (result (program func args)) as [|msg|residue]; simpl in Hrun.
  - injection Hrun as <- <-. simpl. rewrite app_nil_r. by repeat split.
  - injection Hrun as <- <-. by repeat split.
  - unfold lua_gettop in Hrun. cbn [L set_L] in Hrun. rewrite Hbase in Hrun.
    rewrite length_app in Hrun.
    destruct (decide _) as [Hpos|Hzero]; injection Hrun as <- <-.
    + destruct residue as [|r residue]; [simpl in Hpos; lia|]. by repeat split.
    + destruct residue as [|r residue]; [|simpl in Hzero; lia]. by repeat split.
Qed.
End Marshalling.

(** ** Reload and aliases *)

Section Aliases.
Context `{PhaseBits} `{LuaCode}.




End Aliases.

(** ** The model at work *)

Section Witnesses.
Import Example.
#[local] Existing Instance bits.
#[local] Existing Instance code.

Lemma reachable_loaded : reachable loaded.
Proof.
  eapply reachable_step; [by apply (reachable_initial fresh)|].
  apply (step_StoryLoaded [] sample_story fresh). by split.
Qed.



Lemma reachable_three_on_DB_Foo : reachable three_on_DB_Foo.
Proof.
  repeat (eapply reachable_step; [|apply step_Subscribe]).
  apply reachable_loaded.
Qed.



Lemma RunHandler_restores_stack_witness :
  let run := RunHandler_args (CallWithTraceback 1) 2 [7%Z] fresh in
  let run' := RunHandler_tuple (CallWithTraceback 1) 3 (Some [7%Z]) fresh in
  run = Done (landing run (fresh, []))
  /\ lua_gettop (landing run (fresh, [])).1 = lua_gettop fresh
  /\ console (landing run (fresh, [])).1 = [ErrHandlerFailed]
  /\ run' = Done (landing run' (fresh, []))
  /\ lua_gettop (landing run' (fresh, [])).1 = lua_gettop fresh
  /\ console (landing run' (fresh, [])).1 = [ErrCallbackFailed].
Proof.
  intros run run'.
  destruct (RunHandler_restores_stack 1 2 [7%Z] None fresh) as (Hargs & _ & _).
  destruct (RunHandler_restores_stack 1 3 [] (Some [7%Z]) fresh) as (_ & Htuple & _).
  assert (run = Done ((landing run (fresh, [])).1, (landing run (fresh, [])).2))
    as Hrun by (vm_compute; reflexivity).
  assert (run' = Done ((landing run' (fresh, [])).1, (landing run' (fresh, [])).2))
    as Hrun' by (vm_compute; reflexivity).
  split_and!.
  - vm_compute. reflexivity.
  - apply (Hargs _ _ Hrun).
  - vm_compute. reflexivity.
  - vm_compute. reflexivity.
  - apply (Htuple _ _ Hrun').
  - vm_compute. reflexivity.
Defined.

Lemma Subscribe_always_succeeds_witness :
  let w' := Subscribe "Ev" 1 BeforeDeleteTrigger 4 loaded in
  subscribers_ (callbacks w') = subscribers_ (callbacks loaded) ++ [4]
  /\ nodeSubscriberRefs_ (callbacks w') = nodeSubscriberRefs_ (callbacks loaded)
  /\ console w' = console loaded ++ [WarnDeleteTriggers "Ev" 1].
Proof.
  destruct (Subscribe_always_succeeds "Ev" 1 BeforeDeleteTrigger 4 loaded)
    as (Hsubs & _ & Hdelete & _).
  destruct (Hdelete (mkFunction Event 5 (mkNodeRef 0 false)))
    as [Hnodes Hconsole]; try (vm_compute; reflexivity).
  split_and!; [exact Hsubs|exact Hnodes|exact Hconsole].
Defined.

Lemma Exit_assertion_witness :
  let entered := landing (Enter [3; 4] (mkPending [] 0) []) (0, mkPending [] 0, []) in
  Enter [3; 4] (mkPending [] 0) [] = Done entered
  /\ Exit entered.1.1 entered.1.2 = Done (mkPending (cache_ entered.1.2) 0)
  /\ Exit (S entered.1.1) entered.1.2 = Crash AssertionFailed.
Proof.
  intros entered.
  destruct Exit_assertion as (Hchar & Hpair & Hbad & _).
  assert (Enter [3; 4] (mkPending [] 0) [] = Done (entered.1.1, entered.1.2, entered.2))
    as Hrun by (vm_compute; reflexivity).
  split_and!.
  - vm_compute. reflexivity.
  - apply (Hpair _ _ _ _ _ _ Hrun).
  - apply Hbad. right. vm_compute. discriminate.
Defined.

Lemma handler_indices_in_bounds_witness :
  indices_valid (callbacks three_on_DB_Foo)
  /\ forall fuel f,
       RunHandlers_args (CallWithTraceback fuel) 17 [] three_on_DB_Foo <> Crash f.
Proof.
  destruct (handler_indices_in_bounds three_on_DB_Foo reachable_three_on_DB_Foo)
    as (Hvalid & _ & Hargs & _).
  split; [exact Hvalid|]. intros fuel f. apply Hargs.
Defined.

(** C1 *)
Theorem merging_gate_missing_on_argument_path :
  merging_ (callbacks merging) = true
  /\ handlers_for 17 (callbacks merging) = [4]
  /\ handlers_for 31 (callbacks merging) = [4]
  /\ InsertPreHook (CallWithTraceback 1) 17 (Some [1%Z; 2%Z]) false merging
     = Done (merging, [])
  /\ CallQueryPreHook (CallWithTraceback 1) 31 [1%Z; 2%Z] merging
     = Done ((landing (CallQueryPreHook (CallWithTraceback 1) 31 [1%Z; 2%Z] merging)
                (merging, [])).1,
             [Invoked 4 [1%Z; 2%Z] []]).
Proof.
  split_and!; vm_compute; reflexivity.
Qed.
End Witnesses.

(** ** Further runs of the model *)

Section Runs.
Import Example Scenario.
#[local] Existing Instance bits.
#[local] Existing Instance code.



Lemma fire_three_on_DB_Foo :
  fire 1 insert_DB_Foo three_on_DB_Foo
  = Done (fired, (landing (fire 1 insert_DB_Foo three_on_DB_Foo) (three_on_DB_Foo, [])).2).
Proof. vm_compute. reflexivity. Qed.

Lemma reachable_fired : reachable fired.
Proof.
  eapply reachable_step; [apply reachable_three_on_DB_Foo|].
  eapply step_fire. apply fire_three_on_DB_Foo.
Qed.




Lemma dispatch_without_work_witness :
  dispatch (CallWithTraceback 1) insert_DB_Foo merging = Done (merging, []).
Proof.
  apply dispatch_without_work. right. right.
  split; vm_compute; reflexivity.
Defined.

Lemma firing_frame_witness :
  depth_ (pendingCallbacks_ (callbacks three_on_DB_Foo)) = 0
  /\ depth_ (pendingCallbacks_ (callbacks fired)) = 0
  /\ L fired = L three_on_DB_Foo.
Proof.
  destruct (firing_frame 1 insert_DB_Foo three_on_DB_Foo reachable_three_on_DB_Foo)
    as (Hdepth & _ & Hframe).
  destruct (Hframe _ _ fire_three_on_DB_Foo) as (_ & Hdepth' & _ & Hstack & _).
  split_and!; [exact Hdepth|exact Hdepth'|exact Hstack].
Defined.

Lemma Enter_reuses_released_array_witness :
  Exit 0 (mkPending [0] 1) = Done (mkPending [0] 0)
  /\ Enter [7] (mkPending [0] 0) [[3; 4]] = Done (0, mkPending [0] 1, [[7]]).
Proof.
  destruct (Enter_reuses_released_array [3; 4] [7] (mkPending [] 0) [] 0
              (mkPending [0] 1) [[3; 4]]) as (_ & _ & Hexit & Hagain).
  - simpl. lia.
  - constructor.
  - constructor.
  - vm_compute. reflexivity.
  - split; [exact Hexit|exact Hagain].
Defined.

Lemma destructor_releases_each_array_once_witness :
  exists live',
    PendingCallbackManager_delete (pendingCallbacks_ (callbacks fired)) (allocated fired)
    = Some live'
    /\ length live' + length (cache_ (pendingCallbacks_ (callbacks fired)))
       = length (arrays fired).
Proof.
  destruct (destructor_releases_each_array_once fired reachable_fired)
    as ((live' & Hdelete & _ & Hcount) & _).
  exists live'. split; [exact Hdelete|exact Hcount].
Defined.

Lemma hooks_installed_at_most_once_witness :
  osiris loaded = osiris fresh ++ installation loaded.
Proof.
  assert (rtc step fresh loaded) as Hsteps.
  { apply rtc_once. apply (step_StoryLoaded [] sample_story fresh). by split. }
  destruct (hooks_installed_at_most_once fresh loaded Hsteps) as (_ & Hfirst).
  destruct Hfirst as (Hinst & _); [reflexivity|]. exact Hinst.
Defined.

Lemma node_map_follows_name_map_witness : node_map_derived three_on_DB_Foo.
Proof.
  destruct (node_map_follows_name_map three_on_DB_Foo reachable_three_on_DB_Foo)
    as (Hd & _).
  exact Hd.
Defined.

Lemma RunHandler_passes_arguments_and_reports_witness :
  let run := RunHandler_tuple (CallWithTraceback 1) 2 (Some [1; 2]%Z) loaded in
  exists w1 nested,
    (landing run (loaded, [])).2 = [Invoked 2 [1; 2]%Z nested]
    /\ console (landing run (loaded, [])).1 = console w1 ++ [ErrHandlerFailed].
Proof.
  intros run.
  assert (run = Done ((landing run (loaded, [])).1, (landing run (loaded, [])).2)) as Hrun
    by (vm_compute; reflexivity).
  destruct (RunHandler_passes_arguments_and_reports 1 2 (Some [1; 2]%Z) loaded _ _ Hrun)
    as (_ & w1 & nested & _ & Ht & Hc & _).
  exists w1, nested. split; [exact Ht|exact Hc].
Defined.

End Runs.

Section HashRuns.
Local Open Scope Z_scope.

Lemma HashMix_permutes_first_argument_witness :
  is_uint64 (HashMix 1 7) /\ exists x, is_uint64 x /\ HashMix x 7 = 0.
Proof.
  assert (is_uint64 7) as Hy by (unfold is_uint64; lia).
  destruct (HashMix_permutes_first_argument 7 Hy) as (Hrange & _ & Hsurj).
  split; [apply Hrange|]. apply Hsurj. unfold is_uint64. lia.
Defined.

Lemma Hash_int32_sign_extends_witness :
  Hash_int32 (-1) = 0xFFFFFFFFFFFFFFFF /\ Hash_int32 (-1) <> Hash_uint32 0xFFFFFFFF.
Proof.
  assert (is_int32 (-1)) as Hv by (unfold is_int32; lia).
  destruct (Hash_int32_sign_extends (-1) Hv) as (_ & _ & Hneg & _).
  destruct Hneg as [Heq Hne]; [lia|]. split.
  - exact Heq.
  - apply Hne. lia.
Defined.

Lemma HashMulti_first_argument_witness :
  is_uint64 (Hash_int32 (-1))
  /\ (HashMulti3 Hash_uint32 Hash_int32 Hash_uint8 1 (-1) 2
      = HashMulti3 Hash_uint32 Hash_int32 Hash_uint8 3 (-1) 2 ->
      Hash_uint32 1 = Hash_uint32 3).
Proof.
  assert (is_uint64 (Hash_int32 (-1))) as Hb by apply to_uint64_range.
  split; [exact Hb|].
  destruct (HashMulti_first_argument Hash_uint32 Hash_int32 Hash_uint8 Hash_uint8
              1 3 (-1) 2 0) as (_ & H3 & _);
    try exact Hb; try (unfold is_uint64, Hash_uint32, Hash_uint8; lia).
  exact H3.
Defined.
End HashRuns.
